(** * Geometry: planar shapes over machine integers

    A shallow embedding of [testing_system.cpp] (namespace [Geometry]):
    [Vector], [Point], [Segment], [Ray], [Line], [Circle], [Polygon] and
    the predicates [ContainsPoint], [CrossesSegment], [Move].

    Every coordinate and coefficient of the program is a C++ [int]; a few
    intermediate values are [long long].  An [int] is modelled as a [Z]
    in the range [-2^31, 2^31) and every [int] operation wraps around
    modulo 2^32 (two's complement, the behaviour of the usual targets);
    [long long] operations wrap modulo 2^64. *)

From Stdlib Require Import ZArith Lia Bool Morphisms Setoid.
From stdpp Require Import base option list.

Local Open Scope Z_scope.

(** ** Machine integers *)

(** 2^31 = 2147483648, 2^32 = 4294967296. *)
Definition wrap32 (z : Z) : Z := (z + 2147483648) mod 4294967296 - 2147483648.

(** 2^63 = 9223372036854775808, 2^64 = 18446744073709551616. *)
Definition wrap64 (z : Z) : Z :=
  (z + 9223372036854775808) mod 18446744073709551616 - 9223372036854775808.

Definition is_int (z : Z) : Prop := -2147483648 <= z <= 2147483647.

(** [int] arithmetic: [x + y], [x - y], [x * y], [-x]. *)
Definition iadd (x y : Z) : Z := wrap32 (x + y).
Definition isub (x y : Z) : Z := wrap32 (x - y).
Definition imul (x y : Z) : Z := wrap32 (x * y).
Definition ineg (x : Z) : Z := wrap32 (- x).

(** [long long] arithmetic; [/] truncates toward zero. *)
Definition lmul (x y : Z) : Z := wrap64 (x * y).
Definition lneg (x : Z) : Z := wrap64 (- x).
Definition ldiv (x y : Z) : Z := wrap64 (Z.quot x y).

(** [static_cast<int>] of a [long long]. *)
Definition to_int (z : Z) : Z := wrap32 z.

(** Congruence modulo 2^32, the relation under which [int] arithmetic is
    exact. *)
Definition eqm32 (x y : Z) : Prop := x mod 4294967296 = y mod 4294967296.

(** ** Data model *)

Record Point := mkPoint { Point_GetX : Z; Point_GetY : Z }.
Record Vector := mkVector { Vector_GetX : Z; Vector_GetY : Z }.
Record Segment := mkSegment { Segment_GetBegin : Point; Segment_GetEnd : Point }.
Record Ray := mkRay { Ray_GetBegin : Point; Ray_GetVector : Vector }.
Record Line := mkLine { Line_a : Z; Line_b : Z; Line_c : Z }.
Record Circle := mkCircle { Circle_center : Point; Circle_radius : Z }.
Record Polygon := mkPolygon { Polygon_size : nat; Polygon_points : list Point }.

(** The closed family of shapes behind [IShape]. *)
Inductive Shape :=
| SPoint (p : Point)
| SSegment (s : Segment)
| SRay (r : Ray)
| SLine (l : Line)
| SCircle (c : Circle)
| SPolygon (g : Polygon).

(** ** Point and Vector *)

(** [Point::operator-], [Point::operator+]. *)
Definition Point_sub (p q : Point) : Point :=
  mkPoint (isub (Point_GetX p) (Point_GetX q)) (isub (Point_GetY p) (Point_GetY q)).
Definition Point_add (p q : Point) : Point :=
  mkPoint (iadd (Point_GetX p) (Point_GetX q)) (iadd (Point_GetY p) (Point_GetY q)).

(** [Vector(const Point&)] and [Vector(const Point& begin, const Point& end)]. *)
Definition Vector_of_Point (p : Point) : Vector :=
  mkVector (Point_GetX p) (Point_GetY p).
Definition Vector_of_Points (begin end_ : Point) : Vector :=
  mkVector (isub (Point_GetX end_) (Point_GetX begin))
           (isub (Point_GetY end_) (Point_GetY begin)).

(** [Vector::operator*] (dot product) and [Vector::operator^] (cross
    product); both are computed and returned as [int]. *)
Definition Vector_dot (v w : Vector) : Z :=
  iadd (imul (Vector_GetX v) (Vector_GetX w)) (imul (Vector_GetY v) (Vector_GetY w)).
Definition Vector_cross (v w : Vector) : Z :=
  isub (imul (Vector_GetX v) (Vector_GetY w)) (imul (Vector_GetY v) (Vector_GetX w)).

(** [Vector::operator-()]. *)
Definition Vector_neg (v : Vector) : Vector :=
  mkVector (ineg (Vector_GetX v)) (ineg (Vector_GetY v)).

Definition Point_Move (vect : Vector) (p : Point) : Point :=
  mkPoint (iadd (Point_GetX p) (Vector_GetX vect))
          (iadd (Point_GetY p) (Vector_GetY vect)).

Definition Point_ContainsPoint (p point : Point) : bool :=
  (Point_GetX p =? Point_GetX point) && (Point_GetY p =? Point_GetY point).

(** ** Line *)

(** [Line(const Point& begin, const Point& end)]. *)
Definition Line_of_Points (begin end_ : Point) : Line :=
  let x1 := Point_GetX begin in
  let y1 := Point_GetY begin in
  let x2 := Point_GetX end_ in
  let y2 := Point_GetY end_ in
  mkLine (isub y2 y1) (isub x1 x2) (isub (imul x2 y1) (imul x1 y2)).

(** [Line(const Ray&)]: [c_ = -a_ * begin.x - b_ * begin.y]. *)
Definition Line_of_Ray (ray : Ray) : Line :=
  let a := Vector_GetY (Ray_GetVector ray) in
  let b := ineg (Vector_GetX (Ray_GetVector ray)) in
  mkLine a b
    (isub (imul (ineg a) (Point_GetX (Ray_GetBegin ray)))
          (imul b (Point_GetY (Ray_GetBegin ray)))).

(** The [int] expression [a_ * x + b_ * y + c_]; [PutPointIntoEquation]
    returns it converted to [long long], which leaves the value as it is. *)
Definition Line_PutPointIntoEquation (l : Line) (point : Point) : Z :=
  iadd (iadd (imul (Line_a l) (Point_GetX point)) (imul (Line_b l) (Point_GetY point)))
       (Line_c l).

Definition Line_IsParalel (l line : Line) : bool :=
  imul (Line_a l) (Line_b line) =? imul (Line_b l) (Line_a line).

Definition Line_IsSame (l line : Line) : bool :=
  Line_IsParalel l line && (imul (Line_c l) (Line_b line) =? imul (Line_b l) (Line_c line)).

Definition Line_IsDistanceEqualRadius (l line : Line) (radius : Z) : bool :=
  if radius =? 0 then false
  else imul (isub (Line_c l) (Line_c line)) (isub (Line_c l) (Line_c line))
       <=? imul (imul radius radius)
                (iadd (imul (Line_a l) (Line_a l)) (imul (Line_b l) (Line_b l))).

Definition Line_Move (vect : Vector) (l : Line) : Line :=
  mkLine (Line_a l) (Line_b l)
    (isub (Line_c l)
          (iadd (imul (Line_a l) (Vector_GetX vect)) (imul (Line_b l) (Vector_GetY vect)))).

Definition Line_ContainsPoint (l : Line) (point : Point) : bool :=
  iadd (iadd (imul (Line_a l) (Point_GetX point)) (imul (Line_b l) (Point_GetY point)))
       (Line_c l) =? 0.

(** The product of the two [long long] equation values. *)
Definition Line_CrossesSegment (l : Line) (segment : Segment) : bool :=
  lmul (Line_PutPointIntoEquation l (Segment_GetBegin segment))
       (Line_PutPointIntoEquation l (Segment_GetEnd segment)) <=? 0.

(** ** Segment *)

Definition Segment_Move (vect : Vector) (s : Segment) : Segment :=
  mkSegment (Point_Move vect (Segment_GetBegin s)) (Point_Move vect (Segment_GetEnd s)).

Definition Segment_ContainsPoint (s : Segment) (point : Point) : bool :=
  let v1 := Vector_of_Point (Point_sub point (Segment_GetBegin s)) in
  let v2 := Vector_of_Point (Point_sub point (Segment_GetEnd s)) in
  (Vector_cross v1 v2 =? 0) && (Vector_dot v1 v2 <=? 0).

(** The inner test reads [segment.GetBegin()] in both conjuncts, as the
    source does. *)
Definition Segment_CrossesSegment (s segment : Segment) : bool :=
  let ab_line := Line_of_Points (Segment_GetBegin s) (Segment_GetEnd s) in
  let cd_line := Line_of_Points (Segment_GetBegin segment) (Segment_GetEnd segment) in
  if Line_CrossesSegment ab_line segment && Line_CrossesSegment cd_line s then
    if negb (Segment_ContainsPoint s (Segment_GetBegin segment)) &&
       negb (Segment_ContainsPoint s (Segment_GetBegin segment)) then
      let v1 := Vector_of_Points (Segment_GetBegin s) (Segment_GetBegin segment) in
      let v2 := Vector_of_Points (Segment_GetEnd s) (Segment_GetEnd segment) in
      Vector_dot v1 v2 <=? 0
    else true
  else false.

Definition Point_CrossesSegment (p : Point) (segment : Segment) : bool :=
  Segment_ContainsPoint segment p.

(** ** Ray *)

(** [Ray(const Point& begin, const Point& end)]. *)
Definition Ray_of_Points (begin end_ : Point) : Ray :=
  mkRay begin (Vector_of_Point (Point_sub end_ begin)).

Definition Ray_Move (vect : Vector) (r : Ray) : Ray :=
  mkRay (mkPoint (iadd (Vector_GetX vect) (Point_GetX (Ray_GetBegin r)))
                 (iadd (Vector_GetY vect) (Point_GetY (Ray_GetBegin r))))
        (Ray_GetVector r).

Definition Ray_ContainsPoint (r : Ray) (point : Point) : bool :=
  let line := Line_of_Ray r in
  if Line_ContainsPoint line point then
    let r0 := Vector_of_Point (Point_sub point (Ray_GetBegin r)) in
    if 0 <=? Vector_dot r0 (Ray_GetVector r) then true else false
  else false.

(** [CalculateDeterminant]: the [int] cross product, returned as
    [long long]. *)
Definition CalculateDeterminant (point1 point2 : Point) : Z :=
  Vector_cross (Vector_of_Point point1) (Vector_of_Point point2).

(** The three [long long] locals of [Ray::CrossesSegment]. *)
Definition Ray_x_numerator (line1 line2 : Line) : Z :=
  CalculateDeterminant (mkPoint (Line_c line1) (Line_b line1))
                       (mkPoint (Line_c line2) (Line_b line2)).
Definition Ray_y_numerator (line1 line2 : Line) : Z :=
  CalculateDeterminant (mkPoint (Line_a line1) (Line_c line1))
                       (mkPoint (Line_a line2) (Line_c line2)).
Definition Ray_denominator (line1 line2 : Line) : Z :=
  lneg (CalculateDeterminant (mkPoint (Line_a line1) (Line_b line1))
                             (mkPoint (Line_a line2) (Line_b line2))).

Definition Ray_CrossesSegment (r : Ray) (segment : Segment) : bool :=
  let line1 := Line_of_Ray r in
  let line2 := Line_of_Points (Segment_GetBegin segment) (Segment_GetEnd segment) in
  if Line_CrossesSegment line1 segment then
    if Line_IsSame line1 line2 then
      Ray_ContainsPoint r (Segment_GetBegin segment) ||
      Ray_ContainsPoint r (Segment_GetEnd segment)
    else
      let x_numerator := Ray_x_numerator line1 line2 in
      let y_numerator := Ray_y_numerator line1 line2 in
      let denominator := Ray_denominator line1 line2 in
      let x_intersect :=
        if negb (denominator =? 0) then to_int (ldiv x_numerator denominator) else 0 in
      let y_intersect :=
        if negb (denominator =? 0) then to_int (ldiv y_numerator denominator) else 0 in
      let intersect_point :=
        mkVector (isub x_intersect (Point_GetX (Ray_GetBegin r)))
                 (isub y_intersect (Point_GetY (Ray_GetBegin r))) in
      if 0 <=? Vector_dot intersect_point (Ray_GetVector r) then true else false
  else false.

(** ** Circle *)

Definition Circle_Move (vect : Vector) (c : Circle) : Circle :=
  mkCircle (mkPoint (iadd (Vector_GetX vect) (Point_GetX (Circle_center c)))
                    (iadd (Vector_GetY vect) (Point_GetY (Circle_center c))))
           (Circle_radius c).

Definition Circle_ContainsPoint (c : Circle) (point : Point) : bool :=
  let len := Point_sub point (Circle_center c) in
  iadd (imul (Point_GetX len) (Point_GetX len)) (imul (Point_GetY len) (Point_GetY len))
  <=? imul (Circle_radius c) (Circle_radius c).

Definition Circle_ContainsPointInPerimetr (c : Circle) (point : Point) : bool :=
  let len := Point_sub point (Circle_center c) in
  iadd (imul (Point_GetX len) (Point_GetX len)) (imul (Point_GetY len) (Point_GetY len))
  =? imul (Circle_radius c) (Circle_radius c).

(** The two lines built in the third branch of [Circle::CrossesSegment]. *)
Definition Circle_circle_line (c : Circle) (segment : Segment) : Line :=
  Line_of_Points (Circle_center c)
    (Point_add (Circle_center c)
               (Point_sub (Segment_GetEnd segment) (Segment_GetBegin segment))).
Definition Circle_seg_line (segment : Segment) : Line :=
  Line_of_Points (Segment_GetBegin segment) (Segment_GetEnd segment).

Definition Circle_CrossesSegment (c : Circle) (segment : Segment) : bool :=
  let b := Segment_GetBegin segment in
  let e := Segment_GetEnd segment in
  if Circle_ContainsPointInPerimetr c b || Circle_ContainsPointInPerimetr c e then true
  else if (Circle_ContainsPoint c b && negb (Circle_ContainsPoint c e)) ||
          (Circle_ContainsPoint c e && negb (Circle_ContainsPoint c b)) then true
  else if negb (Circle_ContainsPoint c b) && negb (Circle_ContainsPoint c e) then
    let circle_line := Circle_circle_line c segment in
    let seg_line := Circle_seg_line segment in
    if Line_IsSame circle_line seg_line then
      let v1 := Vector_of_Point (Point_sub b (Circle_center c)) in
      let v2 := Vector_of_Point (Point_sub e (Circle_center c)) in
      Vector_dot v1 v2 <? 0
    else if Line_IsDistanceEqualRadius circle_line seg_line (Circle_radius c) then true
    else false
  else false.

(** ** Polygon

    [points_[i]] outside the vector has no defined result: the loops
    return [None] there. *)

(** The point handed to [SetPoint] in [Polygon::Move]. *)
Definition Polygon_Move_point (vect : Vector) (p : Point) : Point :=
  mkPoint (iadd (Vector_GetX vect) (Point_GetX p))
          (iadd (Vector_GetY vect) (Point_GetY p)).

(** The loop of [Polygon::Move], [todo] iterations from index [i]. *)
Fixpoint Polygon_Move_loop (vect : Vector) (todo i : nat) (points : list Point)
  : option (list Point) :=
  match todo with
  | O => Some points
  | S todo' =>
      p ← points !! i;
      Polygon_Move_loop vect todo' (S i) (<[i := Polygon_Move_point vect p]> points)
  end.

Definition Polygon_Move (vect : Vector) (g : Polygon) : option Polygon :=
  points ← Polygon_Move_loop vect (Polygon_size g) 0 (Polygon_points g);
  Some (mkPolygon (Polygon_size g) points).

(** The edge built at iteration [i]: [points_[i]] to [points_[i + 1]], and
    the last vertex back to [points_[0]]. *)
Definition Polygon_side (g : Polygon) (i : nat) : option Segment :=
  if (i =? Polygon_size g - 1)%nat then
    p ← Polygon_points g !! i;
    q ← Polygon_points g !! 0%nat;
    Some (mkSegment p q)
  else
    p ← Polygon_points g !! i;
    q ← Polygon_points g !! (i + 1)%nat;
    Some (mkSegment p q).

Fixpoint Polygon_ContainsPointWithDirection_loop (g : Polygon) (ray : Ray)
    (todo i : nat) (n_intersections : Z) : option bool :=
  match todo with
  | O => Some (Z.rem n_intersections 2 =? 1)
  | S todo' =>
      seg ← Polygon_side g i;
      if Segment_ContainsPoint seg (Ray_GetBegin ray) then Some true
      else Polygon_ContainsPointWithDirection_loop g ray todo' (S i)
             (iadd n_intersections (if Ray_CrossesSegment ray seg then 1 else 0))
  end.

Definition Polygon_ContainsPointWithDirection (g : Polygon) (point : Point)
    (direction : Vector) : option bool :=
  Polygon_ContainsPointWithDirection_loop g (mkRay point direction) (Polygon_size g) 0 0.

(** [||] evaluates its right operand only when the left one is false. *)
Definition Polygon_ContainsPoint (g : Polygon) (point : Point) : option bool :=
  let direction1 := mkVector 13 2 in
  let direction2 := mkVector 1 0 in
  match Polygon_ContainsPointWithDirection g point direction2 with
  | Some true => Some true
  | Some false => Polygon_ContainsPointWithDirection g point direction1
  | None => None
  end.

Fixpoint Polygon_CrossesSegment_loop (g : Polygon) (segment : Segment)
    (todo i : nat) : option bool :=
  match todo with
  | O => Some false
  | S todo' =>
      side ← Polygon_side g i;
      if Segment_CrossesSegment side segment then Some true
      else Polygon_CrossesSegment_loop g segment todo' (S i)
  end.

Definition Polygon_CrossesSegment (g : Polygon) (segment : Segment) : option bool :=
  Polygon_CrossesSegment_loop g segment (Polygon_size g) 0.

(** ** The [IShape] contract *)

Definition Shape_Move (vect : Vector) (s : Shape) : option Shape :=
  match s with
  | SPoint p => Some (SPoint (Point_Move vect p))
  | SSegment g => Some (SSegment (Segment_Move vect g))
  | SRay r => Some (SRay (Ray_Move vect r))
  | SLine l => Some (SLine (Line_Move vect l))
  | SCircle c => Some (SCircle (Circle_Move vect c))
  | SPolygon g => SPolygon <$> Polygon_Move vect g
  end.

Definition Shape_ContainsPoint (s : Shape) (point : Point) : option bool :=
  match s with
  | SPoint p => Some (Point_ContainsPoint p point)
  | SSegment g => Some (Segment_ContainsPoint g point)
  | SRay r => Some (Ray_ContainsPoint r point)
  | SLine l => Some (Line_ContainsPoint l point)
  | SCircle c => Some (Circle_ContainsPoint c point)
  | SPolygon g => Polygon_ContainsPoint g point
  end.

Definition Shape_CrossesSegment (s : Shape) (segment : Segment) : option bool :=
  match s with
  | SPoint p => Some (Point_CrossesSegment p segment)
  | SSegment g => Some (Segment_CrossesSegment g segment)
  | SRay r => Some (Ray_CrossesSegment r segment)
  | SLine l => Some (Line_CrossesSegment l segment)
  | SCircle c => Some (Circle_CrossesSegment c segment)
  | SPolygon g => Polygon_CrossesSegment g segment
  end.

(** ** Reference notions in exact integer arithmetic

    The int-free readings of the geometric words of the specification,
    against which the program's predicates are compared. *)

(** [a*x + b*y + c] over the integers. *)
Definition exact_PutPointIntoEquation (l : Line) (point : Point) : Z :=
  Line_a l * Point_GetX point + Line_b l * Point_GetY point + Line_c l.

(** [x1*y2 - y1*x2] and [x1*x2 + y1*y2] over the integers. *)
Definition exact_cross (v w : Vector) : Z :=
  Vector_GetX v * Vector_GetY w - Vector_GetY v * Vector_GetX w.
Definition exact_dot (v w : Vector) : Z :=
  Vector_GetX v * Vector_GetX w + Vector_GetY v * Vector_GetY w.

(** The line [l] crosses the segment: the exact equation values at the two
    endpoints do not have the same strict sign. *)
Definition exact_Line_CrossesSegment (l : Line) (segment : Segment) : bool :=
  exact_PutPointIntoEquation l (Segment_GetBegin segment) *
  exact_PutPointIntoEquation l (Segment_GetEnd segment) <=? 0.

(** The difference [end_ - begin] over the integers. *)
Definition exact_Vector_of_Points (begin end_ : Point) : Vector :=
  mkVector (Point_GetX end_ - Point_GetX begin) (Point_GetY end_ - Point_GetY begin).

(** [r] lies strictly between [p] and [q]: [r = p + (m/n) (q - p)] with
    [0 < m < n]. *)
Definition strictly_between (p q r : Point) : Prop :=
  exists m n : Z, 0 < m < n /\
    n * (Point_GetX r - Point_GetX p) = m * (Point_GetX q - Point_GetX p) /\
    n * (Point_GetY r - Point_GetY p) = m * (Point_GetY q - Point_GetY p).

(** [r] is off the line through [p] and [q]. *)
Definition off_line (p q r : Point) : Prop :=
  (Point_GetX q - Point_GetX p) * (Point_GetY r - Point_GetY p)
  - (Point_GetY q - Point_GetY p) * (Point_GetX r - Point_GetX p) <> 0.

(** Two coefficient triples are proportional by a nonzero (rational)
    scalar [m/n]. *)
Definition proportional (l1 l2 : Line) : Prop :=
  exists m n : Z, m <> 0 /\ n <> 0 /\
    n * Line_a l2 = m * Line_a l1 /\
    n * Line_b l2 = m * Line_b l1 /\
    n * Line_c l2 = m * Line_c l1.

(** A line with [(a, b) <> (0, 0)]. *)
Definition Line_well_formed (l : Line) : Prop := Line_a l <> 0 \/ Line_b l <> 0.

(** Squared distance from the center of the circle to [point]. *)
Definition exact_dist2 (c : Circle) (point : Point) : Z :=
  (Point_GetX point - Point_GetX (Circle_center c)) *
  (Point_GetX point - Point_GetX (Circle_center c)) +
  (Point_GetY point - Point_GetY (Circle_center c)) *
  (Point_GetY point - Point_GetY (Circle_center c)).

(** [point] lies strictly outside the circle. *)
Definition strictly_outside (c : Circle) (point : Point) : Prop :=
  Circle_radius c * Circle_radius c < exact_dist2 c point.

(** The signed area [(e - b) x (center - b)] spanned by the segment and
    the center; it is zero exactly when the center is on the segment's
    line. *)
Definition exact_offset (c : Circle) (segment : Segment) : Z :=
  (Point_GetX (Segment_GetEnd segment) - Point_GetX (Segment_GetBegin segment)) *
  (Point_GetY (Circle_center c) - Point_GetY (Segment_GetBegin segment)) -
  (Point_GetY (Segment_GetEnd segment) - Point_GetY (Segment_GetBegin segment)) *
  (Point_GetX (Circle_center c) - Point_GetX (Segment_GetBegin segment)).

(** Squared perpendicular distance from the center to the line of the
    segment, times the squared length of the segment. *)
Definition dist2_times_len2 (c : Circle) (segment : Segment) : Z :=
  exact_offset c segment * exact_offset c segment.

(** Squared radius times the squared length of the segment. *)
Definition radius2_times_len2 (c : Circle) (segment : Segment) : Z :=
  let dx := Point_GetX (Segment_GetEnd segment) - Point_GetX (Segment_GetBegin segment) in
  let dy := Point_GetY (Segment_GetEnd segment) - Point_GetY (Segment_GetBegin segment) in
  Circle_radius c * Circle_radius c * (dx * dx + dy * dy).

(** [z] is at most [k] in absolute value. *)
Definition bounded (k z : Z) : Prop := - k <= z <= k.

(** Coordinates up to 10000 in absolute value: the cross and dot products of
    differences of such points stay within 32 bits. *)
Definition medium (z : Z) : Prop := bounded 10000 z.
Definition medium_Point (p : Point) : Prop := medium (Point_GetX p) /\ medium (Point_GetY p).

(** ** Well-formed values: stored numbers are [int]s, and a polygon's
    [size_] does not exceed its vertex vector. *)
Definition Point_wf (p : Point) : Prop := is_int (Point_GetX p) /\ is_int (Point_GetY p).
Definition Vector_wf (v : Vector) : Prop := is_int (Vector_GetX v) /\ is_int (Vector_GetY v).
Definition Segment_wf (s : Segment) : Prop :=
  Point_wf (Segment_GetBegin s) /\ Point_wf (Segment_GetEnd s).
Definition Ray_wf (r : Ray) : Prop := Point_wf (Ray_GetBegin r) /\ Vector_wf (Ray_GetVector r).
Definition Line_wf (l : Line) : Prop := is_int (Line_a l) /\ is_int (Line_b l) /\ is_int (Line_c l).
Definition Circle_wf (c : Circle) : Prop := Point_wf (Circle_center c) /\ is_int (Circle_radius c).
Definition Polygon_wf (g : Polygon) : Prop :=
  (Polygon_size g <= length (Polygon_points g))%nat /\ Forall Point_wf (Polygon_points g).
Definition Shape_wf (s : Shape) : Prop :=
  match s with
  | SPoint p => Point_wf p
  | SSegment g => Segment_wf g
  | SRay r => Ray_wf r
  | SLine l => Line_wf l
  | SCircle c => Circle_wf c
  | SPolygon g => Polygon_wf g
  end.

(** ** The remaining operators of [Vector] and constructors *)

(** [Vector::operator+]; [operator+=] stores the same two sums in [*this]. *)
Definition Vector_add (v vect : Vector) : Vector :=
  mkVector (iadd (Vector_GetX v) (Vector_GetX vect)) (iadd (Vector_GetY v) (Vector_GetY vect)).

(** [Vector::operator-] (binary); [operator-=] stores the same two
    differences in [*this]. *)
Definition Vector_sub (v vect : Vector) : Vector :=
  mkVector (isub (Vector_GetX v) (Vector_GetX vect)) (isub (Vector_GetY v) (Vector_GetY vect)).

(** [Vector::operator*(int num) const]: [{num * x_, num * y_}]; the free
    [operator*(int, Vector&)] returns [vect * num]. *)
Definition Vector_scale (v : Vector) (num : Z) : Vector :=
  mkVector (imul num (Vector_GetX v)) (imul num (Vector_GetY v)).

(** [Vector::operator*=]: [x_ *= num; y_ *= num]. *)
Definition Vector_mul_assign (v : Vector) (num : Z) : Vector :=
  mkVector (imul (Vector_GetX v) num) (imul (Vector_GetY v) num).

(** [explicit Polygon(std::vector<Point> points)]: [size_] is the size of
    the vector. *)
Definition Polygon_of_vector (points : list Point) : Polygon :=
  mkPolygon (length points) points.

(** A shape that is not a polygon, respectively not a ray. *)
Definition Shape_not_Polygon (s : Shape) : Prop :=
  match s with SPolygon _ => False | _ => True end.
Definition Shape_not_Ray (s : Shape) : Prop :=
  match s with SRay _ => False | _ => True end.

(** Direction components up to 10000 in absolute value. *)
Definition medium_Vector (v : Vector) : Prop :=
  medium (Vector_GetX v) /\ medium (Vector_GetY v).

(** The ray crosses edge [i] of the polygon; the number of edges among
    the first [size_] that it crosses. *)
Definition Polygon_edge_crossed (g : Polygon) (ray : Ray) (i : nat) : bool :=
  match Polygon_side g i with
  | Some side => Ray_CrossesSegment ray side
  | None => false
  end.
Definition Polygon_edges_crossed (g : Polygon) (ray : Ray) : nat :=
  length (List.filter (Polygon_edge_crossed g ray) (seq 0 (Polygon_size g))).

(** * Machine-integer lemmas *)

Lemma wrap32_is_int z : is_int (wrap32 z).
Proof.
  unfold is_int, wrap32.
  pose proof (Z.mod_pos_bound (z + 2147483648) 4294967296). lia.
Qed.

Lemma wrap32_small z : is_int z -> wrap32 z = z.
Proof.
  unfold is_int, wrap32. intros Hz.
  rewrite Z.mod_small by lia. lia.
Qed.

Lemma wrap32_eqm z : eqm32 (wrap32 z) z.
Proof.
  unfold eqm32, wrap32.
  rewrite Zminus_mod, Zmod_mod, <- Zminus_mod. f_equal. lia.
Qed.

#[local] Instance eqm32_equivalence : Equivalence eqm32.
Proof.
  unfold eqm32. split.
  - intros x. reflexivity.
  - intros x y H. symmetry. exact H.
  - intros x y z H1 H2. congruence.
Qed.

#[local] Instance eqm32_add : Proper (eqm32 ==> eqm32 ==> eqm32) Z.add.
Proof.
  unfold eqm32. intros x x' Hx y y' Hy.
  rewrite (Zplus_mod x), (Zplus_mod x'), Hx, Hy. reflexivity.
Qed.

#[local] Instance eqm32_sub : Proper (eqm32 ==> eqm32 ==> eqm32) Z.sub.
Proof.
  unfold eqm32. intros x x' Hx y y' Hy.
  rewrite (Zminus_mod x), (Zminus_mod x'), Hx, Hy. reflexivity.
Qed.

#[local] Instance eqm32_mul : Proper (eqm32 ==> eqm32 ==> eqm32) Z.mul.
Proof.
  unfold eqm32. intros x x' Hx y y' Hy.
  rewrite (Zmult_mod x), (Zmult_mod x'), Hx, Hy. reflexivity.
Qed.

#[local] Instance eqm32_opp : Proper (eqm32 ==> eqm32) Z.opp.
Proof.
  intros x x' Hx. rewrite <- !Z.sub_0_l. rewrite Hx. reflexivity.
Qed.

Lemma wrap32_proper x y : eqm32 x y -> wrap32 x = wrap32 y.
Proof.
  unfold eqm32, wrap32. intros H.
  rewrite (Zplus_mod x), (Zplus_mod y), H. reflexivity.
Qed.

#[local] Instance eqm32_wrap32 : Proper (eqm32 ==> eqm32) wrap32.
Proof. intros x y H. rewrite (wrap32_proper x y H). reflexivity. Qed.

Lemma wrap32_eq_eqm x y : wrap32 x = wrap32 y -> eqm32 x y.
Proof.
  intros H. rewrite <- (wrap32_eqm x), <- (wrap32_eqm y), H. reflexivity.
Qed.

Lemma eqm32_of_eq x y : x = y -> eqm32 x y.
Proof. intros ->. reflexivity. Qed.

Lemma eqm32_is_int_eq x y : is_int x -> is_int y -> eqm32 x y -> x = y.
Proof.
  intros Hx Hy H. apply wrap32_proper in H.
  rewrite !wrap32_small in H; assumption.
Qed.

Lemma wrap32_zero_eqm x : wrap32 x = 0 -> eqm32 x 0.
Proof. intros H. rewrite <- (wrap32_eqm x), H. reflexivity. Qed.

Lemma wrap64_small z :
  -9223372036854775808 <= z <= 9223372036854775807 -> wrap64 z = z.
Proof.
  unfold wrap64. intros Hz. rewrite Z.mod_small by lia. lia.
Qed.

(** The product of two [int]s fits a [long long]. *)
Lemma lmul_is_int x y : is_int x -> is_int y -> lmul x y = x * y.
Proof.
  unfold is_int, lmul. intros Hx Hy. apply wrap64_small. nia.
Qed.

Lemma lneg_is_int x : is_int x -> lneg x = - x.
Proof.
  unfold is_int, lneg. intros Hx. apply wrap64_small. lia.
Qed.

(** Strip every inner wrap-around of a goal [wrap32 _ = wrap32 _] and
    compare the polynomials. *)
Ltac int_unfold :=
  unfold Vector_dot, Vector_cross, iadd, isub, imul, ineg in *.
Ltac eqm32_ring :=
  rewrite ?wrap32_eqm; apply eqm32_of_eq; ring.
Ltac int_ring :=
  int_unfold; apply wrap32_proper; eqm32_ring.

(** * Circle: endpoint swap *)

Lemma Vector_dot_comm v w : Vector_dot v w = Vector_dot w v.
Proof. int_ring. Qed.

Section CircleSwap.
Variables (c : Circle) (a b : Point).

(** Swapping the endpoints negates all six coefficients of the two lines,
    modulo 2^32, so every product compared by the tests is unchanged. *)
Lemma swap_IsSame :
  Line_IsSame (Circle_circle_line c (mkSegment b a)) (Circle_seg_line (mkSegment b a)) =
  Line_IsSame (Circle_circle_line c (mkSegment a b)) (Circle_seg_line (mkSegment a b)).
Proof.
  unfold Line_IsSame, Line_IsParalel, Circle_circle_line, Circle_seg_line,
    Line_of_Points, Point_add, Point_sub; cbn [Line_a Line_b Line_c
    Segment_GetBegin Segment_GetEnd Point_GetX Point_GetY].
  f_equal; f_equal; int_ring.
Qed.

Lemma swap_IsDistanceEqualRadius r :
  Line_IsDistanceEqualRadius
    (Circle_circle_line c (mkSegment b a)) (Circle_seg_line (mkSegment b a)) r =
  Line_IsDistanceEqualRadius
    (Circle_circle_line c (mkSegment a b)) (Circle_seg_line (mkSegment a b)) r.
Proof.
  unfold Line_IsDistanceEqualRadius, Circle_circle_line, Circle_seg_line,
    Line_of_Points, Point_add, Point_sub; cbn [Line_a Line_b Line_c
    Segment_GetBegin Segment_GetEnd Point_GetX Point_GetY].
  destruct (r =? 0); [reflexivity|].
  f_equal; int_ring.
Qed.
End CircleSwap.

(** C6. For every circle [c] and all points [a], [b], the circle gives the
    same crossing answer for the segment from [a] to [b] and for the
    segment from [b] to [a]. *)
Theorem Circle_CrossesSegment_swap (c : Circle) (a b : Point) :
  Circle_CrossesSegment c (mkSegment a b) = Circle_CrossesSegment c (mkSegment b a).
Proof.
  unfold Circle_CrossesSegment; cbn [Segment_GetBegin Segment_GetEnd].
  rewrite (swap_IsSame c a b), (swap_IsDistanceEqualRadius c a b).
  rewrite (Vector_dot_comm (Vector_of_Point (Point_sub b (Circle_center c)))).
  destruct (Circle_ContainsPointInPerimetr c a), (Circle_ContainsPointInPerimetr c b),
    (Circle_ContainsPoint c a), (Circle_ContainsPoint c b); reflexivity.
Qed.

(** * Ray: the intersection denominator *)

Lemma Line_PutPointIntoEquation_is_int l point :
  is_int (Line_PutPointIntoEquation l point).
Proof. apply wrap32_is_int. Qed.

Section ParallelLine.
Variables (l : Line) (P Q : Point).
Hypothesis Hpar : Line_IsParalel l (Line_of_Points P Q) = true.

Lemma parallel_eqm :
  eqm32 (Line_a l * (Point_GetX P - Point_GetX Q))
        (Line_b l * (Point_GetY Q - Point_GetY P)).
Proof.
  unfold Line_IsParalel, Line_of_Points in Hpar; cbn [Line_a Line_b] in Hpar.
  apply Z.eqb_eq in Hpar. int_unfold. apply wrap32_eq_eqm in Hpar.
  rewrite !wrap32_eqm in Hpar. exact Hpar.
Qed.

(** A line parallel to the segment's own line takes one and the same
    [int] value at both endpoints. *)
Lemma parallel_equal_values :
  Line_PutPointIntoEquation l P = Line_PutPointIntoEquation l Q.
Proof.
  unfold Line_PutPointIntoEquation. int_unfold.
  apply wrap32_proper. rewrite !wrap32_eqm.
  replace (Line_a l * Point_GetX P + Line_b l * Point_GetY P + Line_c l)
    with (Line_a l * Point_GetX Q + Line_b l * Point_GetY Q + Line_c l
          + (Line_a l * (Point_GetX P - Point_GetX Q)
             - Line_b l * (Point_GetY Q - Point_GetY P))) by ring.
  rewrite parallel_eqm. apply eqm32_of_eq. ring.
Qed.

(** If moreover that value is zero, the [c] test of [IsSame] passes. *)
Lemma parallel_zero_value_same :
  Line_PutPointIntoEquation l P = 0 -> Line_IsSame l (Line_of_Points P Q) = true.
Proof.
  intros Hz. unfold Line_IsSame. rewrite Hpar. cbn [andb].
  apply Z.eqb_eq.
  unfold Line_PutPointIntoEquation in Hz. int_unfold.
  apply wrap32_zero_eqm in Hz. rewrite !wrap32_eqm in Hz.
  unfold Line_of_Points; cbn [Line_a Line_b Line_c]. int_unfold.
  apply wrap32_proper. rewrite !wrap32_eqm.
  replace (Line_c l * (Point_GetX P - Point_GetX Q))
    with ((Point_GetX P - Point_GetX Q)
            * (Line_a l * Point_GetX P + Line_b l * Point_GetY P + Line_c l)
          - Point_GetX P * (Line_a l * (Point_GetX P - Point_GetX Q))
          - (Point_GetX P - Point_GetX Q) * Line_b l * Point_GetY P) by ring.
  rewrite Hz, parallel_eqm. apply eqm32_of_eq. ring.
Qed.
End ParallelLine.

Lemma Ray_denominator_zero_IsParalel line1 line2 :
  Ray_denominator line1 line2 = 0 -> Line_IsParalel line1 line2 = true.
Proof.
  unfold Ray_denominator, CalculateDeterminant, Vector_of_Point, Line_IsParalel;
    cbn [Point_GetX Point_GetY].
  intros Hden. rewrite lneg_is_int in Hden by apply wrap32_is_int.
  assert (Hc : Vector_cross (mkVector (Line_a line1) (Line_b line1))
                            (mkVector (Line_a line2) (Line_b line2)) = 0) by lia.
  unfold Vector_cross, isub in Hc; cbn [Vector_GetX Vector_GetY] in Hc.
  apply wrap32_zero_eqm in Hc.
  apply Z.eqb_eq, eqm32_is_int_eq; try apply wrap32_is_int.
  replace (imul (Line_a line1) (Line_b line2))
    with (imul (Line_a line1) (Line_b line2) - imul (Line_b line1) (Line_a line2)
          + imul (Line_b line1) (Line_a line2)) by ring.
  rewrite Hc. reflexivity.
Qed.

(** C5. In [Ray::CrossesSegment], whenever the ray's line crosses the
    segment and the two lines are not [IsSame], the denominator of the
    Cramer's-rule quotients is nonzero: the guarded [denominator == 0]
    fallback is not taken and the result is the one computed from the two
    quotients. *)
Theorem Ray_CrossesSegment_denominator_nonzero (r : Ray) (segment : Segment) :
  let line1 := Line_of_Ray r in
  let line2 := Line_of_Points (Segment_GetBegin segment) (Segment_GetEnd segment) in
  Line_CrossesSegment line1 segment = true ->
  Line_IsSame line1 line2 = false ->
  Ray_denominator line1 line2 <> 0 /\
  Ray_CrossesSegment r segment =
    (0 <=? Vector_dot
       (mkVector
          (isub (to_int (ldiv (Ray_x_numerator line1 line2) (Ray_denominator line1 line2)))
                (Point_GetX (Ray_GetBegin r)))
          (isub (to_int (ldiv (Ray_y_numerator line1 line2) (Ray_denominator line1 line2)))
                (Point_GetY (Ray_GetBegin r))))
       (Ray_GetVector r)).
Proof.
  intros line1 line2 Hcross Hsame.
  assert (Hden : Ray_denominator line1 line2 <> 0).
  { intros Hden. apply Ray_denominator_zero_IsParalel in Hden.
    pose proof (parallel_equal_values _ _ _ Hden) as Heq.
    unfold Line_CrossesSegment in Hcross. rewrite <- Heq in Hcross.
    rewrite lmul_is_int in Hcross by apply Line_PutPointIntoEquation_is_int.
    apply Z.leb_le in Hcross.
    assert (Hz : Line_PutPointIntoEquation line1 (Segment_GetBegin segment) = 0) by nia.
    pose proof (parallel_zero_value_same _ _ _ Hden Hz) as Hs.
    fold line2 in Hs. congruence. }
  split; [exact Hden|].
  unfold Ray_CrossesSegment. fold line1 line2. rewrite Hcross, Hsame.
  apply Z.eqb_neq in Hden. rewrite Hden. cbn [negb].
  destruct (0 <=? _); reflexivity.
Qed.

(** The theorem at the ray from (0,0) along (1,0) and the segment from
    (2,-1) to (2,1). *)
Lemma Ray_CrossesSegment_denominator_nonzero_witness :
  let r := mkRay (mkPoint 0 0) (mkVector 1 0) in
  let segment := mkSegment (mkPoint 2 (-1)) (mkPoint 2 1) in
  let line1 := Line_of_Ray r in
  let line2 := Line_of_Points (Segment_GetBegin segment) (Segment_GetEnd segment) in
  Line_CrossesSegment line1 segment = true /\
  Line_IsSame line1 line2 = false /\
  Ray_denominator line1 line2 <> 0 /\
  Ray_CrossesSegment r segment = true.
Proof.
  intros r segment line1 line2.
  split; [reflexivity|]. split; [reflexivity|].
  destruct (Ray_CrossesSegment_denominator_nonzero r segment) as [Hden Hres];
    [reflexivity | reflexivity |].
  split; [exact Hden | rewrite Hres; reflexivity].
Defined.

(** * Move: translating forth and back *)

Lemma wrap32_fix x e : is_int x -> eqm32 e x -> wrap32 e = x.
Proof.
  intros Hx He. rewrite (wrap32_proper e x He). apply wrap32_small, Hx.
Qed.

Ltac int_round :=
  int_unfold; apply wrap32_fix; [assumption | eqm32_ring].

Section MoveBack.
Variable v : Vector.

Lemma Point_Move_back p : Point_wf p -> Point_Move (Vector_neg v) (Point_Move v p) = p.
Proof.
  destruct p as [x y]. intros [Hx Hy]; cbn in Hx, Hy.
  unfold Point_Move, Vector_neg; cbn [Point_GetX Point_GetY Vector_GetX Vector_GetY].
  f_equal; int_round.
Qed.

Lemma Segment_Move_back s :
  Segment_wf s -> Segment_Move (Vector_neg v) (Segment_Move v s) = s.
Proof.
  destruct s as [b e]. intros [Hb He]; cbn in Hb, He.
  unfold Segment_Move; cbn [Segment_GetBegin Segment_GetEnd].
  rewrite !Point_Move_back by assumption. reflexivity.
Qed.

Lemma Polygon_Move_point_back p :
  Point_wf p -> Polygon_Move_point (Vector_neg v) (Polygon_Move_point v p) = p.
Proof.
  destruct p as [x y]. intros [Hx Hy]; cbn in Hx, Hy.
  unfold Polygon_Move_point, Vector_neg;
    cbn [Point_GetX Point_GetY Vector_GetX Vector_GetY].
  f_equal; int_round.
Qed.

Lemma Ray_Move_back r : Ray_wf r -> Ray_Move (Vector_neg v) (Ray_Move v r) = r.
Proof.
  destruct r as [[x y] d]. intros [[Hx Hy] _]; cbn in Hx, Hy.
  unfold Ray_Move, Vector_neg;
    cbn [Ray_GetBegin Ray_GetVector Point_GetX Point_GetY Vector_GetX Vector_GetY].
  f_equal. f_equal; int_round.
Qed.

Lemma Circle_Move_back c : Circle_wf c -> Circle_Move (Vector_neg v) (Circle_Move v c) = c.
Proof.
  destruct c as [[x y] r]. intros [[Hx Hy] _]; cbn in Hx, Hy.
  unfold Circle_Move, Vector_neg;
    cbn [Circle_center Circle_radius Point_GetX Point_GetY Vector_GetX Vector_GetY].
  f_equal. f_equal; int_round.
Qed.

(** The second [c_ -= ...] undoes the first one modulo 2^32. *)
Lemma Line_Move_back l : Line_wf l -> Line_Move (Vector_neg v) (Line_Move v l) = l.
Proof.
  destruct l as [a b c]. intros (_ & _ & Hc); cbn in Hc.
  unfold Line_Move, Vector_neg;
    cbn [Line_a Line_b Line_c Vector_GetX Vector_GetY].
  f_equal; int_round.
Qed.
End MoveBack.

(** The loop of [Polygon::Move] rewrites [todo] vertices in place, starting
    after the prefix [pre] it has already passed. *)
Lemma Polygon_Move_loop_app v todo :
  forall pre rest : list Point,
    (todo <= length rest)%nat ->
    Polygon_Move_loop v todo (length pre) (pre ++ rest) =
    Some (pre ++ (Polygon_Move_point v <$> take todo rest) ++ drop todo rest).
Proof.
  induction todo as [|todo IH]; intros pre rest Hlen.
  - reflexivity.
  - destruct rest as [|p rest]; cbn [length] in Hlen; [lia|].
    cbn [Polygon_Move_loop].
    rewrite list_lookup_middle by reflexivity. cbn [mbind option_bind].
    rewrite insert_app_r_alt by lia. rewrite Nat.sub_diag. cbn [insert list_insert].
    replace (S (length pre)) with (length (pre ++ [Polygon_Move_point v p]))
      by (rewrite length_app; cbn; lia).
    rewrite (cons_middle _ pre rest).
    rewrite (app_assoc pre [Polygon_Move_point v p] rest).
    rewrite IH by lia.
    rewrite <- app_assoc. reflexivity.
Qed.

Lemma Polygon_Move_spec v g :
  (Polygon_size g <= length (Polygon_points g))%nat ->
  Polygon_Move v g =
  Some (mkPolygon (Polygon_size g)
          ((Polygon_Move_point v <$> take (Polygon_size g) (Polygon_points g))
           ++ drop (Polygon_size g) (Polygon_points g))).
Proof.
  intros Hlen. unfold Polygon_Move.
  pose proof (Polygon_Move_loop_app v (Polygon_size g) [] (Polygon_points g) Hlen) as H.
  cbn [length app] in H. rewrite H. reflexivity.
Qed.

Lemma Polygon_Move_back v g :
  Polygon_wf g ->
  exists g', Polygon_Move v g = Some g' /\ Polygon_Move (Vector_neg v) g' = Some g.
Proof.
  destruct g as [n pts]. intros [Hlen Hwf]; cbn in Hlen, Hwf.
  eexists. split; [apply Polygon_Move_spec; exact Hlen|].
  cbn [Polygon_size Polygon_points].
  assert (Hn : length (Polygon_Move_point v <$> take n pts) = n)
    by (rewrite length_fmap, length_take_le; lia).
  rewrite Polygon_Move_spec; cbn [Polygon_size Polygon_points].
  - rewrite take_app_length', drop_app_length' by (symmetry; exact Hn).
    rewrite <- list_fmap_compose.
    rewrite (Forall_fmap_ext_1 (Polygon_Move_point (Vector_neg v) ∘ Polygon_Move_point v) id).
    + rewrite list_fmap_id, take_drop. reflexivity.
    + apply Forall_take. eapply Forall_impl; [exact Hwf|].
      intros p Hp. apply Polygon_Move_point_back, Hp.
  - rewrite length_app, Hn. lia.
Qed.

(** C8. For a shape of any kind (point, segment, ray, line, circle,
    polygon) and every vector [v], [Move(v)] followed by [Move(-v)] returns
    and restores exactly the stored coordinates (for a line its [a, b, c]).
    The shape's stored numbers are [int]s and a polygon's [size_] stays
    within its vertex vector. *)
Theorem Shape_Move_back (s : Shape) (v : Vector) :
  Shape_wf s ->
  exists s', Shape_Move v s = Some s' /\ Shape_Move (Vector_neg v) s' = Some s.
Proof.
  destruct s as [p|g|r|l|c|g]; cbn [Shape_wf Shape_Move]; intros Hwf.
  - eexists; split; [reflexivity|]. cbn. rewrite Point_Move_back by assumption. reflexivity.
  - eexists; split; [reflexivity|]. cbn. rewrite Segment_Move_back by assumption. reflexivity.
  - eexists; split; [reflexivity|]. cbn. rewrite Ray_Move_back by assumption. reflexivity.
  - eexists; split; [reflexivity|]. cbn. rewrite Line_Move_back by assumption. reflexivity.
  - eexists; split; [reflexivity|]. cbn. rewrite Circle_Move_back by assumption. reflexivity.
  - destruct (Polygon_Move_back v g Hwf) as (g' & H1 & H2).
    exists (SPolygon g'). rewrite H1. cbn. rewrite H2. split; reflexivity.
Qed.

(** The theorem at the square (0,0), (4,0), (4,4), (0,4) moved by (1,2). *)
Lemma Shape_Move_back_witness :
  let s := SPolygon (mkPolygon 4 [mkPoint 0 0; mkPoint 4 0; mkPoint 4 4; mkPoint 0 4]) in
  let v := mkVector 1 2 in
  Shape_wf s /\
  exists s', Shape_Move v s = Some s' /\ Shape_Move (Vector_neg v) s' = Some s.
Proof.
  intros s v.
  assert (Hwf : Shape_wf s).
  { split; [cbn; lia|]. repeat constructor; cbn; lia. }
  split; [exact Hwf | exact (Shape_Move_back s v Hwf)].
Defined.

(** * Ray with the zero vector as direction *)

Lemma imul_0_l x : imul 0 x = 0.
Proof. reflexivity. Qed.

Lemma imul_0_r x : imul x 0 = 0.
Proof. unfold imul. rewrite Z.mul_0_r. reflexivity. Qed.

Lemma Line_of_Ray_zero begin :
  Line_of_Ray (mkRay begin (mkVector 0 0)) = mkLine 0 0 0.
Proof. reflexivity. Qed.

Lemma Line_zero_PutPointIntoEquation point :
  Line_PutPointIntoEquation (mkLine 0 0 0) point = 0.
Proof. reflexivity. Qed.

Lemma Line_zero_IsSame line : Line_IsSame (mkLine 0 0 0) line = true.
Proof. reflexivity. Qed.

Lemma Vector_dot_zero_r v : Vector_dot v (mkVector 0 0) = 0.
Proof.
  unfold Vector_dot; cbn [Vector_GetX Vector_GetY]. rewrite !imul_0_r. reflexivity.
Qed.

Lemma Ray_zero_ContainsPoint begin point :
  Ray_ContainsPoint (mkRay begin (mkVector 0 0)) point = true.
Proof.
  unfold Ray_ContainsPoint. rewrite Line_of_Ray_zero.
  cbn [Ray_GetVector]. rewrite Vector_dot_zero_r. reflexivity.
Qed.

(** C9. A ray whose direction is the zero vector derives the line
    [(0, 0, 0)]; its [ContainsPoint] is true for every point and its
    [CrossesSegment] is true for every segment. *)
Theorem Ray_zero_direction (begin point : Point) (segment : Segment) :
  Line_of_Ray (mkRay begin (mkVector 0 0)) = mkLine 0 0 0 /\
  Ray_ContainsPoint (mkRay begin (mkVector 0 0)) point = true /\
  Ray_CrossesSegment (mkRay begin (mkVector 0 0)) segment = true.
Proof.
  split; [reflexivity|]. split; [apply Ray_zero_ContainsPoint|].
  unfold Ray_CrossesSegment. rewrite Line_of_Ray_zero.
  unfold Line_CrossesSegment. rewrite !Line_zero_PutPointIntoEquation.
  rewrite Line_zero_IsSame, Ray_zero_ContainsPoint. reflexivity.
Qed.

(** * Polygon without vertices *)

(** C10. A polygon of zero vertices ([size_] = 0) contains no point and
    crosses no segment: each ray cast leaves the loop at once with an even
    count, and the edge loop of [CrossesSegment] has nothing to visit. *)
Theorem Polygon_empty (points : list Point) (point : Point) (segment : Segment)
    (direction : Vector) :
  Polygon_ContainsPointWithDirection (mkPolygon 0 points) point direction = Some false /\
  Polygon_ContainsPoint (mkPolygon 0 points) point = Some false /\
  Polygon_CrossesSegment (mkPolygon 0 points) segment = Some false.
Proof. repeat split. Qed.

(** * Segment against segment: the endpoint test *)

(** When the first endpoint of the other segment lies on this segment and
    both line tests pass, the crossing is reported. *)
Lemma Segment_CrossesSegment_begin_on_segment (s segment : Segment) :
  Line_CrossesSegment (Line_of_Points (Segment_GetBegin s) (Segment_GetEnd s)) segment = true ->
  Line_CrossesSegment (Line_of_Points (Segment_GetBegin segment) (Segment_GetEnd segment)) s
    = true ->
  Segment_ContainsPoint s (Segment_GetBegin segment) = true ->
  Segment_CrossesSegment s segment = true.
Proof.
  intros H1 H2 H3. unfold Segment_CrossesSegment. rewrite H1, H2, H3. reflexivity.
Qed.

(** C1. The segment from (0,0) to (4,0) and the segment from (-1,1) to
    (0,0): both line tests pass and the last endpoint (0,0) of the second
    lies on the first, yet [CrossesSegment] answers false, because the
    inner test looks at the first endpoint twice and then applies the
    dot-product check.  Asked the other way round, the same two segments
    do cross. *)
Theorem Segment_CrossesSegment_end_on_segment_missed :
  let s := mkSegment (mkPoint 0 0) (mkPoint 4 0) in
  let segment := mkSegment (mkPoint (-1) 1) (mkPoint 0 0) in
  Line_CrossesSegment (Line_of_Points (Segment_GetBegin s) (Segment_GetEnd s)) segment = true /\
  Line_CrossesSegment (Line_of_Points (Segment_GetBegin segment) (Segment_GetEnd segment)) s
    = true /\
  Segment_ContainsPoint s (Segment_GetBegin segment) = false /\
  Segment_ContainsPoint s (Segment_GetEnd segment) = true /\
  Segment_CrossesSegment s segment = false /\
  Segment_CrossesSegment segment s = true.
Proof. repeat split. Qed.

(** * Exact arithmetic on bounded inputs *)

Lemma bounded_add k1 k2 x y : bounded k1 x -> bounded k2 y -> bounded (k1 + k2) (x + y).
Proof. unfold bounded. lia. Qed.

Lemma bounded_sub k1 k2 x y : bounded k1 x -> bounded k2 y -> bounded (k1 + k2) (x - y).
Proof. unfold bounded. lia. Qed.

Lemma bounded_mul k1 k2 x y : bounded k1 x -> bounded k2 y -> bounded (k1 * k2) (x * y).
Proof. unfold bounded. nia. Qed.

Lemma bounded_opp k x : bounded k x -> bounded k (- x).
Proof. unfold bounded. lia. Qed.

Lemma bounded_is_int k x : bounded k x -> k <= 2147483647 -> is_int x.
Proof. unfold bounded, is_int. lia. Qed.

Create HintDb bounded.
#[local] Hint Resolve bounded_add bounded_sub bounded_mul bounded_opp : bounded.

(** Remove the wrap-arounds of the goal from the inside out, each one
    justified by a bound computed from the bounds of the variables. *)
Ltac strip_wraps :=
  repeat match goal with
  | |- context [wrap32 ?e] =>
      lazymatch e with
      | context [wrap32 _] => fail
      | _ => rewrite (wrap32_small e)
               by (eapply bounded_is_int; [solve [eauto 40 with bounded] | lia])
      end
  end.

Ltac medium_intros :=
  unfold medium_Point, medium;
  cbn [Circle_center Circle_radius Segment_GetBegin Segment_GetEnd Point_GetX Point_GetY];
  intros; repeat match goal with H : _ /\ _ |- _ => destruct H end.

(** * Circle: both endpoints outside *)

Lemma Circle_ContainsPoint_medium c point :
  medium_Point (Circle_center c) -> bounded 46340 (Circle_radius c) ->
  medium_Point point ->
  Circle_ContainsPoint c point =
  (exact_dist2 c point <=? Circle_radius c * Circle_radius c).
Proof.
  destruct c as [[cx cy] r], point as [px py].
  medium_intros.
  unfold Circle_ContainsPoint, exact_dist2, Point_sub;
    cbn [Circle_center Circle_radius Point_GetX Point_GetY]; int_unfold.
  strip_wraps. reflexivity.
Qed.

Lemma Circle_ContainsPointInPerimetr_medium c point :
  medium_Point (Circle_center c) -> bounded 46340 (Circle_radius c) ->
  medium_Point point ->
  Circle_ContainsPointInPerimetr c point =
  (exact_dist2 c point =? Circle_radius c * Circle_radius c).
Proof.
  destruct c as [[cx cy] r], point as [px py].
  medium_intros.
  unfold Circle_ContainsPointInPerimetr, exact_dist2, Point_sub;
    cbn [Circle_center Circle_radius Point_GetX Point_GetY]; int_unfold.
  strip_wraps. reflexivity.
Qed.

(** The two lines of the third branch have the same [a] and the same [b],
    whatever the coordinates. *)
Lemma Circle_circle_line_ab c segment :
  Line_a (Circle_circle_line c segment) = Line_a (Circle_seg_line segment) /\
  Line_b (Circle_circle_line c segment) = Line_b (Circle_seg_line segment).
Proof.
  unfold Circle_circle_line, Circle_seg_line, Line_of_Points, Point_add, Point_sub;
    cbn [Line_a Line_b Point_GetX Point_GetY].
  split; int_ring.
Qed.

(** So [IsSame] can only fail on their [c] coefficients. *)
Lemma Circle_IsSame_false_c c segment :
  Line_IsSame (Circle_circle_line c segment) (Circle_seg_line segment) = false ->
  Line_c (Circle_circle_line c segment) <> Line_c (Circle_seg_line segment).
Proof.
  intros Hsame Hc. destruct (Circle_circle_line_ab c segment) as [Ha Hb].
  unfold Line_IsSame, Line_IsParalel in Hsame. rewrite Ha, Hb, Hc in Hsame.
  unfold imul in Hsame.
  rewrite (Z.mul_comm (Line_a (Circle_seg_line segment))) in Hsame.
  rewrite (Z.mul_comm (Line_c (Circle_seg_line segment))) in Hsame.
  rewrite !Z.eqb_refl in Hsame. discriminate.
Qed.

(** On coordinates up to 10000 the difference of the [c] coefficients is
    the exact signed area. *)
Lemma Circle_c_difference_medium c segment :
  medium_Point (Circle_center c) ->
  medium_Point (Segment_GetBegin segment) -> medium_Point (Segment_GetEnd segment) ->
  Line_c (Circle_circle_line c segment) - Line_c (Circle_seg_line segment) =
  exact_offset c segment.
Proof.
  destruct c as [[cx cy] r], segment as [[bx by_] [ex ey]].
  medium_intros.
  unfold Circle_circle_line, Circle_seg_line, exact_offset, Line_of_Points, Point_add,
    Point_sub;
    cbn [Circle_center Segment_GetBegin Segment_GetEnd Point_GetX Point_GetY Line_c];
    int_unfold.
  strip_wraps. ring.
Qed.

Lemma Line_IsDistanceEqualRadius_medium c segment :
  medium_Point (Circle_center c) -> bounded 46340 (Circle_radius c) ->
  medium_Point (Segment_GetBegin segment) -> medium_Point (Segment_GetEnd segment) ->
  dist2_times_len2 c segment <= 2147483647 ->
  radius2_times_len2 c segment <= 2147483647 ->
  Line_IsDistanceEqualRadius (Circle_circle_line c segment) (Circle_seg_line segment)
    (Circle_radius c) =
  negb (Circle_radius c =? 0) &&
  (dist2_times_len2 c segment <=? radius2_times_len2 c segment).
Proof.
  destruct (Circle_circle_line_ab c segment) as [Ha Hb].
  unfold Line_IsDistanceEqualRadius. rewrite Ha, Hb. clear Ha Hb.
  destruct c as [[cx cy] r], segment as [[bx by_] [ex ey]].
  unfold dist2_times_len2, exact_offset, radius2_times_len2.
  medium_intros.
  unfold Circle_circle_line, Circle_seg_line, Line_of_Points, Point_add, Point_sub;
    cbn [Circle_center Circle_radius Segment_GetBegin Segment_GetEnd
         Point_GetX Point_GetY Line_a Line_b Line_c]; int_unfold.
  strip_wraps.
  assert (Hlen2 : 0 <= (ex - bx) * (ex - bx) + (ey - by_) * (ey - by_)).
  { pose proof (Z.square_nonneg (ex - bx)). pose proof (Z.square_nonneg (ey - by_)). lia. }
  set (offset := (ex - bx) * (cy - by_) - (ey - by_) * (cx - bx)) in *.
  set (len2 := (ex - bx) * (ex - bx) + (ey - by_) * (ey - by_)) in *.
  match goal with |- context [wrap32 (?e * ?e)] =>
    replace e with offset by (unfold offset; ring)
  end.
  match goal with |- context [wrap32 (r * r * ?e)] =>
    replace e with len2 by (unfold len2; ring)
  end.
  clearbody offset len2.
  pose proof (Z.square_nonneg offset) as Hoff2.
  pose proof (Z.mul_nonneg_nonneg _ _ (Z.square_nonneg r) Hlen2) as Hrad2.
  rewrite (wrap32_small (offset * offset)) by (unfold is_int; lia).
  rewrite (wrap32_small (r * r * len2)) by (unfold is_int; lia).
  destruct (r =? 0); reflexivity.
Qed.

(** C3 (as the code has it). For a circle and a segment on which the
    arithmetic of this branch stays within 32 bits (coordinates up to 10000
    and radius up to 46340 in absolute value, the two compared squares
    below 2^31), with both endpoints strictly outside the circle and the
    [IsSame] test failing: [CrossesSegment] returns true if and only if the
    perpendicular distance from the center to the segment's line is at most
    the radius (compared as squares, both sides scaled by the squared
    length of the segment), and false otherwise. *)
Theorem Circle_CrossesSegment_outside_at_most_radius (c : Circle) (segment : Segment) :
  medium_Point (Circle_center c) -> bounded 46340 (Circle_radius c) ->
  medium_Point (Segment_GetBegin segment) -> medium_Point (Segment_GetEnd segment) ->
  dist2_times_len2 c segment <= 2147483647 ->
  radius2_times_len2 c segment <= 2147483647 ->
  strictly_outside c (Segment_GetBegin segment) ->
  strictly_outside c (Segment_GetEnd segment) ->
  Line_IsSame (Circle_circle_line c segment) (Circle_seg_line segment) = false ->
  (Circle_CrossesSegment c segment = true <->
   dist2_times_len2 c segment <= radius2_times_len2 c segment).
Proof.
  intros Hc Hr Hb He Hd2 Hr2 Hob Hoe Hsame.
  unfold Circle_CrossesSegment.
  rewrite Hsame, Line_IsDistanceEqualRadius_medium by assumption.
  rewrite !Circle_ContainsPointInPerimetr_medium, !Circle_ContainsPoint_medium
    by assumption.
  apply Circle_IsSame_false_c in Hsame.
  pose proof (Circle_c_difference_medium c segment Hc Hb He) as Hoff.
  unfold strictly_outside in Hob, Hoe.
  destruct (Z.eqb_spec (exact_dist2 c (Segment_GetBegin segment))
              (Circle_radius c * Circle_radius c)); [lia|].
  destruct (Z.eqb_spec (exact_dist2 c (Segment_GetEnd segment))
              (Circle_radius c * Circle_radius c)); [lia|].
  destruct (Z.leb_spec (exact_dist2 c (Segment_GetBegin segment))
              (Circle_radius c * Circle_radius c)); [lia|].
  destruct (Z.leb_spec (exact_dist2 c (Segment_GetEnd segment))
              (Circle_radius c * Circle_radius c)); [lia|].
  cbn [orb andb negb].
  destruct (Z.eqb_spec (Circle_radius c) 0) as [Hr0|Hr0]; cbn [negb andb].
  - assert (Hnz : exact_offset c segment <> 0) by lia.
    unfold dist2_times_len2, radius2_times_len2. rewrite Hr0.
    split; [discriminate | nia].
  - destruct (Z.leb_spec (dist2_times_len2 c segment) (radius2_times_len2 c segment));
      split; intros; try reflexivity; try discriminate; lia.
Qed.

(** The theorem at the circle of center (0,0) and radius 5 and the segment
    from (-10,1) to (10,1), a secant at distance 1. *)
Lemma Circle_CrossesSegment_outside_at_most_radius_witness :
  let c := mkCircle (mkPoint 0 0) 5 in
  let segment := mkSegment (mkPoint (-10) 1) (mkPoint 10 1) in
  (medium_Point (Circle_center c) /\ bounded 46340 (Circle_radius c) /\
   medium_Point (Segment_GetBegin segment) /\ medium_Point (Segment_GetEnd segment)) /\
  (dist2_times_len2 c segment <= 2147483647 /\
   radius2_times_len2 c segment <= 2147483647) /\
  (strictly_outside c (Segment_GetBegin segment) /\
   strictly_outside c (Segment_GetEnd segment)) /\
  Line_IsSame (Circle_circle_line c segment) (Circle_seg_line segment) = false /\
  (Circle_CrossesSegment c segment = true <->
   dist2_times_len2 c segment <= radius2_times_len2 c segment).
Proof.
  intros c segment.
  assert (Hin : medium_Point (Circle_center c) /\ bounded 46340 (Circle_radius c) /\
            medium_Point (Segment_GetBegin segment) /\
            medium_Point (Segment_GetEnd segment))
    by (subst c segment; unfold medium_Point, medium, bounded; cbn; lia).
  assert (Hfit : dist2_times_len2 c segment <= 2147483647 /\
            radius2_times_len2 c segment <= 2147483647)
    by (subst c segment; vm_compute; split; discriminate).
  assert (Hout : strictly_outside c (Segment_GetBegin segment) /\
            strictly_outside c (Segment_GetEnd segment))
    by (subst c segment; unfold strictly_outside, exact_dist2; cbn; lia).
  assert (Hsame : Line_IsSame (Circle_circle_line c segment) (Circle_seg_line segment)
            = false) by reflexivity.
  split; [exact Hin|]. split; [exact Hfit|]. split; [exact Hout|]. split; [exact Hsame|].
  destruct Hin as (H1 & H2 & H3 & H4). destruct Hfit as (H5 & H6).
  destruct Hout as (H7 & H8).
  exact (Circle_CrossesSegment_outside_at_most_radius c segment
           H1 H2 H3 H4 H5 H6 H7 H8 Hsame).
Defined.

(** C3 (as stated) fails: for that circle and secant both endpoints are
    strictly outside, the lines are not [IsSame] and the center is not on
    the segment's line; [CrossesSegment] returns true although the distance
    from the center to the line (1) is not the radius (5). *)
Lemma Circle_CrossesSegment_secant :
  let c := mkCircle (mkPoint 0 0) 5 in
  let segment := mkSegment (mkPoint (-10) 1) (mkPoint 10 1) in
  strictly_outside c (Segment_GetBegin segment) /\
  strictly_outside c (Segment_GetEnd segment) /\
  Line_IsSame (Circle_circle_line c segment) (Circle_seg_line segment) = false /\
  exact_offset c segment <> 0 /\
  ~ (Circle_CrossesSegment c segment = true <->
     dist2_times_len2 c segment = radius2_times_len2 c segment).
Proof.
  cbv zeta. repeat split; try (unfold strictly_outside, exact_dist2; cbn; lia).
  { vm_compute. discriminate. }
  intros [H _]. specialize (H eq_refl). revert H. vm_compute. discriminate.
Qed.

(** * Segment: containment of a point *)

(** The test is the conjunction of the two [int] comparisons. *)
Lemma Segment_ContainsPoint_iff (s : Segment) (point : Point) :
  Segment_ContainsPoint s point = true <->
  Vector_cross (Vector_of_Point (Point_sub point (Segment_GetBegin s)))
               (Vector_of_Point (Point_sub point (Segment_GetEnd s))) = 0 /\
  Vector_dot (Vector_of_Point (Point_sub point (Segment_GetBegin s)))
             (Vector_of_Point (Point_sub point (Segment_GetEnd s))) <= 0.
Proof.
  unfold Segment_ContainsPoint. rewrite andb_true_iff, Z.eqb_eq, Z.leb_le. reflexivity.
Qed.

Lemma isub_diag x : isub x x = 0.
Proof. unfold isub. rewrite Z.sub_diag. reflexivity. Qed.

(** Both endpoints are contained, whatever the coordinates. *)
Lemma Segment_ContainsPoint_endpoints (p q : Point) :
  Segment_ContainsPoint (mkSegment p q) p = true /\
  Segment_ContainsPoint (mkSegment p q) q = true.
Proof.
  unfold Segment_ContainsPoint, Point_sub, Vector_of_Point, Vector_cross, Vector_dot;
    cbn [Segment_GetBegin Segment_GetEnd Point_GetX Point_GetY Vector_GetX Vector_GetY].
  rewrite !isub_diag, !imul_0_l, !imul_0_r. split; reflexivity.
Qed.

(** On coordinates up to 10000 the test is the exact one. *)
Lemma Segment_ContainsPoint_medium (p q r : Point) :
  medium_Point p -> medium_Point q -> medium_Point r ->
  Segment_ContainsPoint (mkSegment p q) r =
  (exact_cross (exact_Vector_of_Points p r) (exact_Vector_of_Points q r) =? 0) &&
  (exact_dot (exact_Vector_of_Points p r) (exact_Vector_of_Points q r) <=? 0).
Proof.
  destruct p as [px py], q as [qx qy], r as [rx ry].
  medium_intros.
  unfold Segment_ContainsPoint, Point_sub, Vector_of_Point, exact_cross, exact_dot,
    exact_Vector_of_Points;
    cbn [Segment_GetBegin Segment_GetEnd Point_GetX Point_GetY Vector_GetX Vector_GetY].
  int_unfold. strip_wraps. reflexivity.
Qed.

Lemma strictly_between_exact (p q r : Point) :
  strictly_between p q r ->
  exact_cross (exact_Vector_of_Points p r) (exact_Vector_of_Points q r) = 0 /\
  exact_dot (exact_Vector_of_Points p r) (exact_Vector_of_Points q r) <= 0.
Proof.
  destruct p as [px py], q as [qx qy], r as [rx ry].
  unfold strictly_between, exact_cross, exact_dot, exact_Vector_of_Points;
    cbn [Point_GetX Point_GetY Vector_GetX Vector_GetY].
  intros (m & n & Hmn & Hx & Hy).
  set (u1 := rx - px) in *. set (u2 := ry - py) in *.
  set (w1 := qx - px) in *. set (w2 := qy - py) in *.
  replace (rx - qx) with (u1 - w1) by (unfold u1, w1; ring).
  replace (ry - qy) with (u2 - w2) by (unfold u2, w2; ring).
  clearbody u1 u2 w1 w2.
  assert (Hc : n * (u1 * (u2 - w2) - u2 * (u1 - w1)) = 0).
  { replace (n * (u1 * (u2 - w2) - u2 * (u1 - w1)))
      with ((n * u2) * w1 - (n * u1) * w2) by ring.
    rewrite Hx, Hy. ring. }
  assert (Hd : n * n * (u1 * (u1 - w1) + u2 * (u2 - w2))
               = m * (m - n) * (w1 * w1 + w2 * w2)).
  { replace (n * n * (u1 * (u1 - w1) + u2 * (u2 - w2)))
      with ((n * u1) * (n * u1 - n * w1) + (n * u2) * (n * u2 - n * w2)) by ring.
    rewrite Hx, Hy. ring. }
  split.
  - apply Z.mul_eq_0 in Hc. lia.
  - assert (Hs : m * (m - n) * (w1 * w1 + w2 * w2) <= 0) by nia.
    rewrite <- Hd in Hs. nia.
Qed.

Lemma off_line_exact (p q r : Point) :
  off_line p q r ->
  exact_cross (exact_Vector_of_Points p r) (exact_Vector_of_Points q r) <> 0.
Proof.
  destruct p as [px py], q as [qx qy], r as [rx ry].
  unfold off_line, exact_cross, exact_Vector_of_Points;
    cbn [Point_GetX Point_GetY Vector_GetX Vector_GetY].
  intros H E. apply H. rewrite <- E. ring.
Qed.

(** On coordinates up to 10000: true at the endpoints and strictly between
    them, false off the line. *)
Lemma Segment_ContainsPoint_medium_geometry (p q r : Point) :
  medium_Point p -> medium_Point q -> medium_Point r ->
  (r = p \/ r = q \/ strictly_between p q r ->
   Segment_ContainsPoint (mkSegment p q) r = true) /\
  (off_line p q r -> Segment_ContainsPoint (mkSegment p q) r = false).
Proof.
  intros Hp Hq Hr. split.
  - intros [-> | [-> | Hb]]; try apply Segment_ContainsPoint_endpoints.
    rewrite Segment_ContainsPoint_medium by assumption.
    destruct (strictly_between_exact p q r Hb) as [Hc Hd].
    rewrite Hc. apply Z.leb_le in Hd. rewrite Hd. reflexivity.
  - intros Ho. rewrite Segment_ContainsPoint_medium by assumption.
    apply off_line_exact, Z.eqb_neq in Ho. rewrite Ho. reflexivity.
Qed.

(** C7. Two inputs with 32-bit coordinates on which 32-bit products wrap
    around.  (60000,0) is the midpoint of the segment from (0,0) to
    (120000,0), yet [ContainsPoint] answers false: the dot product
    -3600000000 is stored as 694967296.  (65536,0) is off the line through
    (0,0) and (65536,65536), yet [ContainsPoint] answers true: the cross
    product -2^32 is stored as 0. *)
Theorem Segment_ContainsPoint_overflow :
  (let p := mkPoint 0 0 in
   let q := mkPoint 120000 0 in
   let r := mkPoint 60000 0 in
   strictly_between p q r /\
   Vector_dot (Vector_of_Point (Point_sub r p)) (Vector_of_Point (Point_sub r q))
     = 694967296 /\
   Segment_ContainsPoint (mkSegment p q) r = false) /\
  (let p := mkPoint 0 0 in
   let q := mkPoint 65536 65536 in
   let r := mkPoint 65536 0 in
   off_line p q r /\
   Vector_cross (Vector_of_Point (Point_sub r p)) (Vector_of_Point (Point_sub r q)) = 0 /\
   Segment_ContainsPoint (mkSegment p q) r = true).
Proof.
  cbv zeta. repeat split.
  - exists 1, 2. cbn. lia.
  - unfold off_line. cbn. lia.
Qed.

(** * Line: sameness *)

(** Proportional coefficient triples always pass [IsSame]. *)
Lemma Line_IsSame_proportional (l1 l2 : Line) :
  proportional l1 l2 -> Line_IsSame l1 l2 = true.
Proof.
  destruct l1 as [a1 b1 c1], l2 as [a2 b2 c2].
  unfold proportional, Line_IsSame, Line_IsParalel; cbn [Line_a Line_b Line_c].
  intros (m & n & Hm & Hn & Ha & Hb & Hc).
  assert (Hab : a1 * b2 = b1 * a2).
  { apply (Z.mul_reg_l _ _ n Hn).
    replace (n * (a1 * b2)) with (a1 * (n * b2)) by ring.
    replace (n * (b1 * a2)) with (b1 * (n * a2)) by ring.
    rewrite Ha, Hb. ring. }
  assert (Hcb : c1 * b2 = b1 * c2).
  { apply (Z.mul_reg_l _ _ n Hn).
    replace (n * (c1 * b2)) with (c1 * (n * b2)) by ring.
    replace (n * (b1 * c2)) with (b1 * (n * c2)) by ring.
    rewrite Hb, Hc. ring. }
  unfold imul. rewrite Hab, Hcb, !Z.eqb_refl. reflexivity.
Qed.

(** On coefficients up to 10000 and a first line that is not vertical,
    [IsSame] against a well-formed line means proportional. *)
Lemma Line_IsSame_medium_not_vertical (l1 l2 : Line) :
  medium (Line_a l1) -> medium (Line_b l1) -> medium (Line_c l1) ->
  medium (Line_a l2) -> medium (Line_b l2) -> medium (Line_c l2) ->
  Line_b l1 <> 0 -> Line_well_formed l2 ->
  Line_IsSame l1 l2 = true -> proportional l1 l2.
Proof.
  destruct l1 as [a1 b1 c1], l2 as [a2 b2 c2].
  unfold medium, Line_well_formed, proportional, Line_IsSame, Line_IsParalel;
    cbn [Line_a Line_b Line_c].
  intros Ha1 Hb1 Hc1 Ha2 Hb2 Hc2 Hnz Hwf. int_unfold. revert Hwf. strip_wraps.
  intros Hwf Hsame. apply andb_true_iff in Hsame. rewrite !Z.eqb_eq in Hsame.
  destruct Hsame as [Hab Hcb].
  assert (Hb2nz : b2 <> 0).
  { intros E. subst b2. rewrite Z.mul_0_r in Hab.
    symmetry in Hab. apply Z.mul_eq_0 in Hab. lia. }
  exists b2, b1. repeat split; try assumption; lia.
Qed.

(** C2. The well-formed lines [x = 0] (1, 0, 0) and [x + 5 = 0] (1, 0, 5)
    pass [IsSame], although their coefficients are not proportional and the
    origin lies on the first line only: with [b = 0] on both sides the [c]
    test compares 0 with 0. *)
Theorem Line_IsSame_vertical :
  let l1 := mkLine 1 0 0 in
  let l2 := mkLine 1 0 5 in
  Line_well_formed l1 /\ Line_well_formed l2 /\
  Line_IsSame l1 l2 = true /\
  ~ proportional l1 l2 /\
  Line_ContainsPoint l1 (mkPoint 0 0) = true /\
  Line_ContainsPoint l2 (mkPoint 0 0) = false.
Proof.
  cbv zeta. unfold Line_well_formed, proportional; cbn [Line_a Line_b Line_c].
  repeat split; try (left; lia).
  intros (m & n & Hm & Hn & Ha & Hb & Hc). lia.
Qed.

(** * Width of the arithmetic *)

(** C4. The line through (0,0) and (0,65536) has the coefficients
    (65536, 0, 0).  At the point (65536, 0) its equation is worth 2^32 over
    the integers, but the [int] product wraps to 0 before it is widened:
    the point is reported on the line, and the segment from (65536,0) to
    (65536,1), which lies on one side of the line, is reported as crossed.
    The [int] cross product of (65536,0) and (0,65536) is 0 instead of
    2^32. *)
Theorem int_products_wrap :
  let l := Line_of_Points (mkPoint 0 0) (mkPoint 0 65536) in
  let point := mkPoint 65536 0 in
  let segment := mkSegment point (mkPoint 65536 1) in
  l = mkLine 65536 0 0 /\
  Line_PutPointIntoEquation l point = 0 /\
  exact_PutPointIntoEquation l point = 4294967296 /\
  Line_ContainsPoint l point = true /\
  Line_CrossesSegment l segment = true /\
  exact_Line_CrossesSegment l segment = false /\
  Vector_cross (mkVector 65536 0) (mkVector 0 65536) = 0 /\
  exact_cross (mkVector 65536 0) (mkVector 0 65536) = 4294967296.
Proof. cbv zeta. repeat split. Qed.

(** * Further properties of the program *)

(** ** Vector algebra *)

Lemma wrap32_eqm_0 e : eqm32 e 0 -> wrap32 e = 0.
Proof. intros H. rewrite (wrap32_proper e 0 H). reflexivity. Qed.

Ltac int_zero :=
  int_unfold; apply wrap32_eqm_0; eqm32_ring.

Lemma ineg_eq_0 x : is_int x -> (ineg x =? 0) = (x =? 0).
Proof.
  intros Hx. unfold ineg.
  destruct (Z.eqb_spec x 0) as [->|Hne]; [reflexivity|].
  apply Z.eqb_neq. intros H. apply Hne.
  apply wrap32_zero_eqm in H.
  apply eqm32_is_int_eq; [assumption | unfold is_int; lia |].
  rewrite <- (Z.opp_involutive x), H. reflexivity.
Qed.

(** X1. The cross product changes sign when its operands are swapped
    (the negation being the [int] one) and vanishes on equal operands. *)
Theorem Vector_cross_antisymmetric (v w : Vector) :
  Vector_cross v w = ineg (Vector_cross w v) /\ Vector_cross v v = 0.
Proof.
  split.
  - int_ring.
  - int_zero.
Qed.

(** X2. The dot and cross products are additive in their first operand
    and commute with [operator*(int)], all in [int] arithmetic. *)
Theorem Vector_products_linear (u v w : Vector) (num : Z) :
  Vector_dot (Vector_add u v) w = iadd (Vector_dot u w) (Vector_dot v w) /\
  Vector_cross (Vector_add u v) w = iadd (Vector_cross u w) (Vector_cross v w) /\
  Vector_dot (Vector_scale v num) w = imul num (Vector_dot v w) /\
  Vector_cross (Vector_scale v num) w = imul num (Vector_cross v w) /\
  Vector_mul_assign v num = Vector_scale v num.
Proof.
  unfold Vector_add, Vector_scale, Vector_mul_assign, Vector_dot, Vector_cross;
    cbn [Vector_GetX Vector_GetY].
  repeat split; try int_ring.
  f_equal; int_ring.
Qed.

(** X3. For a vector of [int] components, adding and then subtracting the
    same vector ([+=] then [-=], or the other way round) gives the vector
    back, and negating twice does too. *)
Theorem Vector_add_sub_back (v w : Vector) :
  Vector_wf v ->
  Vector_sub (Vector_add v w) w = v /\
  Vector_add (Vector_sub v w) w = v /\
  Vector_neg (Vector_neg v) = v.
Proof.
  destruct v as [x y]. intros [Hx Hy]; cbn in Hx, Hy.
  unfold Vector_sub, Vector_add, Vector_neg; cbn [Vector_GetX Vector_GetY].
  repeat split; f_equal; int_round.
Qed.

Lemma Vector_add_sub_back_witness :
  let v := mkVector 2147483647 (-5) in
  let w := mkVector 1 7 in
  Vector_wf v /\
  Vector_sub (Vector_add v w) w = v /\
  Vector_add (Vector_sub v w) w = v /\
  Vector_neg (Vector_neg v) = v.
Proof.
  intros v w.
  assert (Hwf : Vector_wf v) by (subst v; unfold Vector_wf, is_int; cbn; lia).
  split; [exact Hwf | exact (Vector_add_sub_back v w Hwf)].
Defined.

(** ** Point differences *)

(** X4. For a point [b] of [int] coordinates, [(b - a) + a] is [b], and
    moving [a] by the vector made from [b - a] (what the driver does with
    its two query points) lands on [b]. *)
Theorem Point_sub_add_back (a b : Point) :
  Point_wf b ->
  Point_add (Point_sub b a) a = b /\
  Point_Move (Vector_of_Point (Point_sub b a)) a = b.
Proof.
  destruct a as [ax ay], b as [bx by_]. intros [Hx Hy]; cbn in Hx, Hy.
  unfold Point_add, Point_sub, Point_Move, Vector_of_Point;
    cbn [Point_GetX Point_GetY Vector_GetX Vector_GetY].
  split; f_equal; int_round.
Qed.

Lemma Point_sub_add_back_witness :
  let a := mkPoint 2147483647 3 in
  let b := mkPoint (-2147483648) 4 in
  Point_wf b /\
  Point_add (Point_sub b a) a = b /\
  Point_Move (Vector_of_Point (Point_sub b a)) a = b.
Proof.
  intros a b.
  assert (Hwf : Point_wf b) by (subst b; unfold Point_wf, is_int; cbn; lia).
  split; [exact Hwf | exact (Point_sub_add_back a b Hwf)].
Defined.

(** ** Composition of moves *)

Lemma Polygon_Move_point_Point_Move v p : Polygon_Move_point v p = Point_Move v p.
Proof.
  unfold Polygon_Move_point, Point_Move, iadd.
  rewrite (Z.add_comm (Vector_GetX v)), (Z.add_comm (Vector_GetY v)). reflexivity.
Qed.

Lemma Point_Move_Move v w p :
  Point_Move w (Point_Move v p) = Point_Move (Vector_add v w) p.
Proof.
  unfold Point_Move, Vector_add; cbn [Point_GetX Point_GetY Vector_GetX Vector_GetY].
  f_equal; int_ring.
Qed.

(** With [size_] beyond the vector the loop of [Polygon::Move] reads past
    the last vertex. *)
Lemma Polygon_Move_loop_short v todo :
  forall pre rest : list Point,
    (length rest < todo)%nat ->
    Polygon_Move_loop v todo (length pre) (pre ++ rest) = None.
Proof.
  induction todo as [|todo IH]; intros pre rest Hlen; [lia|].
  cbn [Polygon_Move_loop]. destruct rest as [|p rest].
  - rewrite app_nil_r, lookup_ge_None_2 by lia. reflexivity.
  - cbn [length] in Hlen.
    rewrite list_lookup_middle by reflexivity. cbn [mbind option_bind].
    rewrite insert_app_r_alt by lia. rewrite Nat.sub_diag. cbn [insert list_insert].
    replace (S (length pre)) with (length (pre ++ [Polygon_Move_point v p]))
      by (rewrite length_app; cbn; lia).
    rewrite (cons_middle _ pre rest).
    rewrite (app_assoc pre [Polygon_Move_point v p] rest).
    apply IH. lia.
Qed.

Lemma Polygon_Move_None v g :
  (length (Polygon_points g) < Polygon_size g)%nat -> Polygon_Move v g = None.
Proof.
  intros Hlen. unfold Polygon_Move.
  pose proof (Polygon_Move_loop_short v (Polygon_size g) [] (Polygon_points g) Hlen) as H.
  cbn [length app] in H. rewrite H. reflexivity.
Qed.

Lemma Polygon_Move_Some_inv v g g' :
  Polygon_Move v g = Some g' ->
  (Polygon_size g <= length (Polygon_points g))%nat /\
  g' = mkPolygon (Polygon_size g)
         ((Polygon_Move_point v <$> take (Polygon_size g) (Polygon_points g))
          ++ drop (Polygon_size g) (Polygon_points g)).
Proof.
  intros H.
  destruct (le_lt_dec (Polygon_size g) (length (Polygon_points g))) as [Hle|Hlt].
  - rewrite (Polygon_Move_spec v g Hle) in H. split; [exact Hle | congruence].
  - rewrite (Polygon_Move_None v g Hlt) in H. discriminate.
Qed.

Lemma Polygon_Move_Move v w g :
  Polygon_Move v g ≫= Polygon_Move w = Polygon_Move (Vector_add v w) g.
Proof.
  destruct g as [n pts].
  destruct (le_lt_dec n (length pts)) as [Hle|Hlt].
  - assert (Hn : length (Polygon_Move_point v <$> take n pts) = n)
      by (rewrite length_fmap, length_take_le; lia).
    rewrite !Polygon_Move_spec by exact Hle.
    cbn [mbind option_bind Polygon_size Polygon_points].
    rewrite Polygon_Move_spec; cbn [Polygon_size Polygon_points].
    + rewrite take_app_length', drop_app_length' by (symmetry; exact Hn).
      rewrite <- list_fmap_compose. do 3 f_equal.
      apply Forall_fmap_ext_1, Forall_forall. intros p _. cbn.
      rewrite !Polygon_Move_point_Point_Move. apply Point_Move_Move.
    + rewrite length_app, Hn, length_drop. lia.
  - rewrite !Polygon_Move_None by exact Hlt. reflexivity.
Qed.

(** X5. Moving a shape of any kind by [v] and then by [w] is moving it once
    by [v + w] ([Vector::operator+]); a polygon whose [size_] exceeds its
    vertex vector has no result either way. *)
Theorem Shape_Move_Move (s : Shape) (v w : Vector) :
  Shape_Move v s ≫= Shape_Move w = Shape_Move (Vector_add v w) s.
Proof.
  destruct s as [p|g|r|l|c|g]; cbn [Shape_Move mbind option_bind].
  - rewrite Point_Move_Move. reflexivity.
  - unfold Segment_Move; cbn [Segment_GetBegin Segment_GetEnd].
    rewrite !Point_Move_Move. reflexivity.
  - do 2 f_equal. unfold Ray_Move, Vector_add;
      cbn [Ray_GetBegin Ray_GetVector Point_GetX Point_GetY Vector_GetX Vector_GetY].
    f_equal. f_equal; int_ring.
  - do 2 f_equal. unfold Line_Move, Vector_add;
      cbn [Line_a Line_b Line_c Vector_GetX Vector_GetY].
    f_equal; int_ring.
  - do 2 f_equal. unfold Circle_Move, Vector_add;
      cbn [Circle_center Circle_radius Point_GetX Point_GetY Vector_GetX Vector_GetY].
    f_equal. f_equal; int_ring.
  - rewrite <- Polygon_Move_Move.
    destruct (Polygon_Move v g) as [g'|]; reflexivity.
Qed.

(** X6. Moving a well-formed shape by the zero vector leaves it as it
    is. *)
Theorem Shape_Move_zero (s : Shape) :
  Shape_wf s -> Shape_Move (mkVector 0 0) s = Some s.
Proof.
  assert (Hp : forall p, Point_wf p -> Point_Move (mkVector 0 0) p = p).
  { intros [x y] [Hx Hy]; cbn in Hx, Hy.
    unfold Point_Move; cbn [Point_GetX Point_GetY Vector_GetX Vector_GetY].
    f_equal; int_round. }
  destruct s as [p|g|r|l|c|g]; cbn [Shape_wf Shape_Move]; intros Hwf.
  - rewrite Hp by assumption. reflexivity.
  - destruct g as [b e], Hwf as [Hb He]; cbn in Hb, He.
    unfold Segment_Move; cbn [Segment_GetBegin Segment_GetEnd].
    rewrite !Hp by assumption. reflexivity.
  - destruct r as [[x y] d], Hwf as [[Hx Hy] _]; cbn in Hx, Hy.
    unfold Ray_Move;
      cbn [Ray_GetBegin Ray_GetVector Point_GetX Point_GetY Vector_GetX Vector_GetY].
    do 4 f_equal; int_round.
  - destruct l as [a b c], Hwf as (_ & _ & Hc); cbn in Hc.
    unfold Line_Move; cbn [Line_a Line_b Line_c Vector_GetX Vector_GetY].
    do 3 f_equal. int_round.
  - destruct c as [[x y] r], Hwf as [[Hx Hy] _]; cbn in Hx, Hy.
    unfold Circle_Move;
      cbn [Circle_center Circle_radius Point_GetX Point_GetY Vector_GetX Vector_GetY].
    do 4 f_equal; int_round.
  - destruct g as [n pts], Hwf as [Hlen Hall]; cbn in Hlen, Hall.
    rewrite Polygon_Move_spec by exact Hlen. cbn [Polygon_size Polygon_points fmap option_fmap option_map].
    do 3 f_equal.
    rewrite (Forall_fmap_ext_1 (Polygon_Move_point (mkVector 0 0)) id).
    + rewrite list_fmap_id. apply take_drop.
    + apply Forall_take. eapply Forall_impl; [exact Hall|].
      intros p Hwf. rewrite Polygon_Move_point_Point_Move. apply Hp, Hwf.
Qed.

Lemma Shape_Move_zero_witness :
  let s := SPolygon (Polygon_of_vector [mkPoint 0 0; mkPoint 4 0; mkPoint 4 4]) in
  Shape_wf s /\ Shape_Move (mkVector 0 0) s = Some s.
Proof.
  intros s.
  assert (Hwf : Shape_wf s).
  { split; [cbn; lia|]. repeat constructor; cbn; lia. }
  split; [exact Hwf | exact (Shape_Move_zero s Hwf)].
Defined.

(** ** Moving a shape together with the query *)

Lemma Line_of_Points_Move v p q :
  Line_of_Points (Point_Move v p) (Point_Move v q) = Line_Move v (Line_of_Points p q).
Proof.
  unfold Line_of_Points, Line_Move, Point_Move;
    cbn [Point_GetX Point_GetY Line_a Line_b Line_c].
  f_equal; int_ring.
Qed.

Lemma Line_of_Ray_Move v r : Line_of_Ray (Ray_Move v r) = Line_Move v (Line_of_Ray r).
Proof.
  unfold Line_of_Ray, Line_Move, Ray_Move;
    cbn [Ray_GetBegin Ray_GetVector Point_GetX Point_GetY Line_a Line_b Line_c].
  f_equal; int_ring.
Qed.

(** X7. Building a line commutes with moving: the line through two moved
    points, and the line of a moved ray, are the moved line. *)
Theorem Line_constructors_Move (v : Vector) (p q : Point) (r : Ray) :
  Line_of_Points (Point_Move v p) (Point_Move v q) = Line_Move v (Line_of_Points p q) /\
  Line_of_Ray (Ray_Move v r) = Line_Move v (Line_of_Ray r).
Proof. split; [apply Line_of_Points_Move | apply Line_of_Ray_Move]. Qed.

Lemma Line_PutPointIntoEquation_Move v l p :
  Line_PutPointIntoEquation (Line_Move v l) (Point_Move v p) = Line_PutPointIntoEquation l p.
Proof.
  unfold Line_PutPointIntoEquation, Line_Move, Point_Move;
    cbn [Point_GetX Point_GetY Line_a Line_b Line_c].
  int_ring.
Qed.

Lemma Line_ContainsPoint_Move v l p :
  Line_ContainsPoint (Line_Move v l) (Point_Move v p) = Line_ContainsPoint l p.
Proof.
  pose proof (Line_PutPointIntoEquation_Move v l p) as H.
  unfold Line_ContainsPoint. unfold Line_PutPointIntoEquation in H. rewrite H. reflexivity.
Qed.

Lemma Line_CrossesSegment_Move v l s :
  Line_CrossesSegment (Line_Move v l) (Segment_Move v s) = Line_CrossesSegment l s.
Proof.
  unfold Line_CrossesSegment, Segment_Move; cbn [Segment_GetBegin Segment_GetEnd].
  rewrite !Line_PutPointIntoEquation_Move. reflexivity.
Qed.

Lemma Point_sub_Move v p q : Point_sub (Point_Move v p) (Point_Move v q) = Point_sub p q.
Proof.
  unfold Point_sub, Point_Move; cbn [Point_GetX Point_GetY]. f_equal; int_ring.
Qed.

(** The same with the second point moved as [Ray::Move] and
    [Circle::Move] do, [vect + point]. *)
Lemma Point_sub_Move_flip v p x y :
  Point_sub (Point_Move v p)
            (mkPoint (iadd (Vector_GetX v) x) (iadd (Vector_GetY v) y)) =
  Point_sub p (mkPoint x y).
Proof.
  unfold Point_sub, Point_Move; cbn [Point_GetX Point_GetY]. f_equal; int_ring.
Qed.

Lemma Vector_of_Points_Move v p q :
  Vector_of_Points (Point_Move v p) (Point_Move v q) = Vector_of_Points p q.
Proof.
  unfold Vector_of_Points, Point_Move; cbn [Point_GetX Point_GetY]. f_equal; int_ring.
Qed.

Lemma Segment_ContainsPoint_Move v s p :
  Segment_ContainsPoint (Segment_Move v s) (Point_Move v p) = Segment_ContainsPoint s p.
Proof.
  unfold Segment_ContainsPoint, Segment_Move; cbn [Segment_GetBegin Segment_GetEnd].
  rewrite !Point_sub_Move. reflexivity.
Qed.

Lemma Segment_CrossesSegment_Move v s t :
  Segment_CrossesSegment (Segment_Move v s) (Segment_Move v t) = Segment_CrossesSegment s t.
Proof.
  unfold Segment_CrossesSegment.
  change (Segment_GetBegin (Segment_Move v s)) with (Point_Move v (Segment_GetBegin s)).
  change (Segment_GetEnd (Segment_Move v s)) with (Point_Move v (Segment_GetEnd s)).
  change (Segment_GetBegin (Segment_Move v t)) with (Point_Move v (Segment_GetBegin t)).
  change (Segment_GetEnd (Segment_Move v t)) with (Point_Move v (Segment_GetEnd t)).
  rewrite !Line_of_Points_Move, !Line_CrossesSegment_Move, !Segment_ContainsPoint_Move,
    !Vector_of_Points_Move.
  reflexivity.
Qed.

Lemma Ray_ContainsPoint_Move v r p :
  Ray_ContainsPoint (Ray_Move v r) (Point_Move v p) = Ray_ContainsPoint r p.
Proof.
  unfold Ray_ContainsPoint. rewrite Line_of_Ray_Move, Line_ContainsPoint_Move.
  destruct r as [[x y] d]. unfold Ray_Move; cbn [Ray_GetBegin Ray_GetVector Point_GetX Point_GetY].
  rewrite Point_sub_Move_flip. reflexivity.
Qed.

Lemma Circle_ContainsPoint_Move v c p :
  Circle_ContainsPoint (Circle_Move v c) (Point_Move v p) = Circle_ContainsPoint c p.
Proof.
  destruct c as [[x y] r].
  unfold Circle_ContainsPoint, Circle_Move; cbn [Circle_center Circle_radius Point_GetX Point_GetY].
  rewrite Point_sub_Move_flip. reflexivity.
Qed.

Lemma Circle_ContainsPointInPerimetr_Move v c p :
  Circle_ContainsPointInPerimetr (Circle_Move v c) (Point_Move v p) =
  Circle_ContainsPointInPerimetr c p.
Proof.
  destruct c as [[x y] r].
  unfold Circle_ContainsPointInPerimetr, Circle_Move;
    cbn [Circle_center Circle_radius Point_GetX Point_GetY].
  rewrite Point_sub_Move_flip. reflexivity.
Qed.

(** Two [int]s wrap to the same value exactly when their arguments differ
    by a multiple of 2^32. *)
Lemma wrap32_eqb_eqm x y x' y' :
  eqm32 (x - y) (x' - y') -> (wrap32 x =? wrap32 y) = (wrap32 x' =? wrap32 y').
Proof.
  intros H.
  assert (Hiff : forall a b, wrap32 a = wrap32 b <-> eqm32 (a - b) 0).
  { intros a b. split; intros E.
    - apply wrap32_eq_eqm in E. rewrite E. apply eqm32_of_eq. ring.
    - apply wrap32_proper. replace a with (a - b + b) by ring. rewrite E. reflexivity. }
  apply eq_true_iff_eq. rewrite !Z.eqb_eq, !Hiff, H. reflexivity.
Qed.

(** [IsSame] does not change when both lines are moved by one vector. *)
Lemma Line_IsSame_Move v l1 l2 :
  Line_IsSame (Line_Move v l1) (Line_Move v l2) = Line_IsSame l1 l2.
Proof.
  destruct l1 as [a1 b1 c1], l2 as [a2 b2 c2].
  unfold Line_IsSame, Line_IsParalel, Line_Move; cbn [Line_a Line_b Line_c].
  destruct (Z.eqb_spec (imul a1 b2) (imul b1 a2)) as [Hpar|]; [|reflexivity].
  cbn [andb]. int_unfold. apply wrap32_eqb_eqm.
  apply wrap32_eq_eqm in Hpar. rewrite !wrap32_eqm.
  replace (c1 * b2 - b1 * c2) with
    ((c1 - (a1 * Vector_GetX v + b1 * Vector_GetY v)) * b2
     - b1 * (c2 - (a2 * Vector_GetX v + b2 * Vector_GetY v))
     + Vector_GetX v * (a1 * b2) - Vector_GetX v * (b1 * a2)) by ring.
  rewrite Hpar. apply eqm32_of_eq. ring.
Qed.

(** Nor does the distance test, for two lines of equal [a] and [b]. *)
Lemma Line_IsDistanceEqualRadius_Move v l1 l2 radius :
  Line_a l1 = Line_a l2 -> Line_b l1 = Line_b l2 ->
  Line_IsDistanceEqualRadius (Line_Move v l1) (Line_Move v l2) radius =
  Line_IsDistanceEqualRadius l1 l2 radius.
Proof.
  destruct l1 as [a1 b1 c1], l2 as [a2 b2 c2]; cbn [Line_a Line_b]. intros <- <-.
  unfold Line_IsDistanceEqualRadius, Line_Move; cbn [Line_a Line_b Line_c].
  destruct (radius =? 0); [reflexivity|]. f_equal. int_ring.
Qed.

Lemma Circle_circle_line_Move v c s :
  Circle_circle_line (Circle_Move v c) (Segment_Move v s) =
  Line_Move v (Circle_circle_line c s).
Proof.
  destruct c as [[x y] r], s as [[bx by_] [ex ey]].
  unfold Circle_circle_line, Circle_Move, Segment_Move, Line_of_Points, Line_Move, Point_add,
    Point_sub, Point_Move;
    cbn [Circle_center Segment_GetBegin Segment_GetEnd Point_GetX Point_GetY
         Line_a Line_b Line_c].
  f_equal; int_ring.
Qed.

Lemma Circle_seg_line_Move v s :
  Circle_seg_line (Segment_Move v s) = Line_Move v (Circle_seg_line s).
Proof. apply Line_of_Points_Move. Qed.

Lemma Circle_CrossesSegment_Move v c s :
  Circle_CrossesSegment (Circle_Move v c) (Segment_Move v s) = Circle_CrossesSegment c s.
Proof.
  unfold Circle_CrossesSegment.
  rewrite Circle_circle_line_Move, Circle_seg_line_Move, Line_IsSame_Move.
  rewrite Line_IsDistanceEqualRadius_Move by apply Circle_circle_line_ab.
  change (Segment_GetBegin (Segment_Move v s)) with (Point_Move v (Segment_GetBegin s)).
  change (Segment_GetEnd (Segment_Move v s)) with (Point_Move v (Segment_GetEnd s)).
  rewrite !Circle_ContainsPointInPerimetr_Move, !Circle_ContainsPoint_Move.
  destruct c as [[x y] r].
  unfold Circle_Move; cbn [Circle_center Circle_radius Point_GetX Point_GetY].
  rewrite !Point_sub_Move_flip. reflexivity.
Qed.

(** Adding one vector to two [int]s keeps them equal or different. *)
Lemma iadd_eqb_cancel x y v :
  is_int x -> is_int y -> (iadd x v =? iadd y v) = (x =? y).
Proof.
  intros Hx Hy. unfold iadd.
  rewrite <- (wrap32_small x) at 2 by assumption.
  rewrite <- (wrap32_small y) at 2 by assumption.
  apply wrap32_eqb_eqm. apply eqm32_of_eq. ring.
Qed.

Lemma Point_ContainsPoint_Move v p q :
  Point_wf p -> Point_wf q ->
  Point_ContainsPoint (Point_Move v p) (Point_Move v q) = Point_ContainsPoint p q.
Proof.
  intros [Hpx Hpy] [Hqx Hqy].
  unfold Point_ContainsPoint, Point_Move; cbn [Point_GetX Point_GetY].
  rewrite !iadd_eqb_cancel by assumption. reflexivity.
Qed.

(** X8. For a point, segment, ray, line or circle: moving the shape and
    the query point by the same vector does not change [ContainsPoint]
    (stored numbers being [int]s). *)
Theorem Shape_ContainsPoint_Move (s s' : Shape) (v : Vector) (point : Point) :
  Shape_wf s -> Point_wf point -> Shape_not_Polygon s ->
  Shape_Move v s = Some s' ->
  Shape_ContainsPoint s' (Point_Move v point) = Shape_ContainsPoint s point.
Proof.
  intros Hwf Hpoint Hkind Hmove.
  destruct s as [p|g|r|l|c|g]; cbn [Shape_Move] in Hmove; try contradiction;
    injection Hmove as <-; cbn [Shape_ContainsPoint]; f_equal.
  - apply Point_ContainsPoint_Move; assumption.
  - apply Segment_ContainsPoint_Move.
  - apply Ray_ContainsPoint_Move.
  - apply Line_ContainsPoint_Move.
  - apply Circle_ContainsPoint_Move.
Qed.

Lemma Shape_ContainsPoint_Move_witness :
  let s := SCircle (mkCircle (mkPoint 0 0) 5) in
  let v := mkVector 2147483647 1 in
  let point := mkPoint 3 4 in
  let s' := SCircle (Circle_Move v (mkCircle (mkPoint 0 0) 5)) in
  Shape_wf s /\ Point_wf point /\ Shape_not_Polygon s /\ Shape_Move v s = Some s' /\
  Shape_ContainsPoint s' (Point_Move v point) = Shape_ContainsPoint s point.
Proof.
  intros s v point s'.
  assert (Hwf : Shape_wf s) by (subst s; unfold Shape_wf, Circle_wf, Point_wf, is_int; cbn; lia).
  assert (Hp : Point_wf point) by (subst point; unfold Point_wf, is_int; cbn; lia).
  assert (Hk : Shape_not_Polygon s) by exact I.
  assert (Hm : Shape_Move v s = Some s') by reflexivity.
  split; [exact Hwf|]. split; [exact Hp|]. split; [exact Hk|]. split; [exact Hm|].
  exact (Shape_ContainsPoint_Move s s' v point Hwf Hp Hk Hm).
Defined.

(** ** Polygon: vertices, edges and bounds *)

(** What [Polygon::Move] leaves in the vertex vector. *)
Lemma Polygon_Move_lookup v g g' :
  Polygon_Move v g = Some g' ->
  (Polygon_size g <= length (Polygon_points g))%nat /\
  Polygon_size g' = Polygon_size g /\
  length (Polygon_points g') = length (Polygon_points g) /\
  forall i : nat,
    Polygon_points g' !! i =
    if (i <? Polygon_size g)%nat then Point_Move v <$> Polygon_points g !! i
    else Polygon_points g !! i.
Proof.
  intros H. apply Polygon_Move_Some_inv in H as [Hle ->].
  cbn [Polygon_size Polygon_points].
  assert (Hn : length (Polygon_Move_point v <$> take (Polygon_size g) (Polygon_points g))
               = Polygon_size g)
    by (rewrite length_fmap, length_take_le; lia).
  split; [exact Hle|]. split; [reflexivity|]. split.
  - rewrite length_app, Hn, length_drop. lia.
  - intros i. destruct (Nat.ltb_spec i (Polygon_size g)) as [Hlt|Hge].
    + rewrite lookup_app_l by lia.
      rewrite list_lookup_fmap, lookup_take_lt by lia.
      destruct (Polygon_points g !! i) as [p|]; cbn; [|reflexivity].
      rewrite Polygon_Move_point_Point_Move. reflexivity.
    + rewrite lookup_app_r by lia. rewrite Hn, lookup_drop.
      f_equal. lia.
Qed.

(** X24. [Polygon::Move] has no result exactly when [size_] exceeds the
    vertex vector (it would index past the end); otherwise it moves the
    first [size_] vertices, keeps the others, and keeps [size_]. *)
Theorem Polygon_Move_bounds (v : Vector) (g : Polygon) :
  (Polygon_Move v g = None <-> (length (Polygon_points g) < Polygon_size g)%nat) /\
  (forall g', Polygon_Move v g = Some g' ->
     Polygon_size g' = Polygon_size g /\
     length (Polygon_points g') = length (Polygon_points g) /\
     forall i : nat,
       Polygon_points g' !! i =
       if (i <? Polygon_size g)%nat then Point_Move v <$> Polygon_points g !! i
       else Polygon_points g !! i).
Proof.
  split.
  - split; [|apply Polygon_Move_None].
    intros H. destruct (le_lt_dec (Polygon_size g) (length (Polygon_points g))) as [Hle|Hlt];
      [|exact Hlt].
    rewrite (Polygon_Move_spec v g Hle) in H. discriminate.
  - intros g' H. apply Polygon_Move_lookup in H. tauto.
Qed.

(** Within [size_ <= points_.size()] every edge index below [size_] has
    its two vertices, the first being [points_[i]]. *)
Lemma Polygon_side_is_Some g i :
  (Polygon_size g <= length (Polygon_points g))%nat -> (i < Polygon_size g)%nat ->
  exists side, Polygon_side g i = Some side /\
               Polygon_points g !! i = Some (Segment_GetBegin side).
Proof.
  intros Hle Hi. unfold Polygon_side.
  destruct (lookup_lt_is_Some_2 (Polygon_points g) i) as [p Hp]; [lia|].
  destruct (Nat.eqb_spec i (Polygon_size g - 1)) as [Hlast|Hmid].
  - destruct (lookup_lt_is_Some_2 (Polygon_points g) 0) as [q Hq]; [lia|].
    rewrite Hp, Hq. cbn. eexists. split; reflexivity.
  - destruct (lookup_lt_is_Some_2 (Polygon_points g) (i + 1)) as [q Hq]; [lia|].
    rewrite Hp, Hq. cbn. eexists. split; reflexivity.
Qed.

Lemma Polygon_side_Move v g g' i :
  Polygon_Move v g = Some g' -> (i < Polygon_size g)%nat ->
  Polygon_side g' i = Segment_Move v <$> Polygon_side g i.
Proof.
  intros Hmove Hi.
  destruct (Polygon_Move_lookup v g g' Hmove) as (Hle & Hsize & _ & Hlook).
  assert (Hlt : forall j, (j < Polygon_size g)%nat ->
            Polygon_points g' !! j = Point_Move v <$> Polygon_points g !! j).
  { intros j Hj. rewrite Hlook. destruct (Nat.ltb_spec j (Polygon_size g)); [reflexivity|lia]. }
  unfold Polygon_side. rewrite Hsize.
  destruct (Nat.eqb_spec i (Polygon_size g - 1)) as [Hlast|Hmid].
  - rewrite (Hlt i), (Hlt 0%nat) by lia.
    destruct (Polygon_points g !! i) as [p|]; [|reflexivity].
    destruct (Polygon_points g !! 0%nat) as [q|]; reflexivity.
  - rewrite (Hlt i), (Hlt (i + 1)%nat) by lia.
    destruct (Polygon_points g !! i) as [p|]; [|reflexivity].
    destruct (Polygon_points g !! (i + 1)%nat) as [q|]; reflexivity.
Qed.

Lemma Polygon_CrossesSegment_loop_Move v g g' t :
  Polygon_Move v g = Some g' ->
  forall todo i, (i + todo <= Polygon_size g)%nat ->
    Polygon_CrossesSegment_loop g' (Segment_Move v t) todo i =
    Polygon_CrossesSegment_loop g t todo i.
Proof.
  intros Hmove. induction todo as [|todo IH]; intros i Hi; [reflexivity|].
  cbn [Polygon_CrossesSegment_loop].
  rewrite (Polygon_side_Move v g g' i Hmove) by lia.
  destruct (Polygon_side g i) as [side|]; [|reflexivity]. cbn.
  rewrite Segment_CrossesSegment_Move.
  destruct (Segment_CrossesSegment side t); [reflexivity|]. apply IH. lia.
Qed.

Lemma Polygon_CrossesSegment_Move v g g' t :
  Polygon_Move v g = Some g' ->
  Polygon_CrossesSegment g' (Segment_Move v t) = Polygon_CrossesSegment g t.
Proof.
  intros Hmove. unfold Polygon_CrossesSegment.
  destruct (Polygon_Move_lookup v g g' Hmove) as (_ & -> & _).
  apply Polygon_CrossesSegment_loop_Move; [exact Hmove | lia].
Qed.

(** X9. For a point, segment, line, circle or polygon: moving the shape
    and the query segment by the same vector does not change
    [CrossesSegment]. *)
Theorem Shape_CrossesSegment_Move (s s' : Shape) (v : Vector) (segment : Segment) :
  Shape_not_Ray s ->
  Shape_Move v s = Some s' ->
  Shape_CrossesSegment s' (Segment_Move v segment) = Shape_CrossesSegment s segment.
Proof.
  intros Hkind Hmove.
  destruct s as [p|g|r|l|c|g]; cbn [Shape_Move] in Hmove; try contradiction.
  - injection Hmove as <-. cbn [Shape_CrossesSegment]. f_equal.
    apply Segment_ContainsPoint_Move.
  - injection Hmove as <-. cbn [Shape_CrossesSegment]. f_equal.
    apply Segment_CrossesSegment_Move.
  - injection Hmove as <-. cbn [Shape_CrossesSegment]. f_equal.
    apply Line_CrossesSegment_Move.
  - injection Hmove as <-. cbn [Shape_CrossesSegment]. f_equal.
    apply Circle_CrossesSegment_Move.
  - destruct (Polygon_Move v g) as [g'|] eqn:Hg; [|discriminate].
    injection Hmove as <-. cbn [Shape_CrossesSegment].
    apply (Polygon_CrossesSegment_Move v g g' segment Hg).
Qed.

Lemma Shape_CrossesSegment_Move_witness :
  let g := Polygon_of_vector [mkPoint 0 0; mkPoint 4 0; mkPoint 4 4; mkPoint 0 4] in
  let v := mkVector 100 (-7) in
  let segment := mkSegment (mkPoint 2 2) (mkPoint 9 2) in
  let g' := Polygon_of_vector [mkPoint 100 (-7); mkPoint 104 (-7); mkPoint 104 (-3);
                               mkPoint 100 (-3)] in
  Shape_not_Ray (SPolygon g) /\
  Shape_Move v (SPolygon g) = Some (SPolygon g') /\
  Shape_CrossesSegment (SPolygon g') (Segment_Move v segment) =
  Shape_CrossesSegment (SPolygon g) segment.
Proof.
  intros g v segment g'.
  assert (Hk : Shape_not_Ray (SPolygon g)) by exact I.
  assert (Hm : Shape_Move v (SPolygon g) = Some (SPolygon g')) by reflexivity.
  split; [exact Hk|]. split; [exact Hm|].
  exact (Shape_CrossesSegment_Move (SPolygon g) (SPolygon g') v segment Hk Hm).
Defined.

Lemma Polygon_CrossesSegment_loop_spec g t :
  (Polygon_size g <= length (Polygon_points g))%nat ->
  forall todo i, (i + todo <= Polygon_size g)%nat ->
    exists b, Polygon_CrossesSegment_loop g t todo i = Some b /\
      (b = true <->
       exists j side, (i <= j < i + todo)%nat /\ Polygon_side g j = Some side /\
                      Segment_CrossesSegment side t = true).
Proof.
  intros Hle. induction todo as [|todo IH]; intros i Hi.
  - exists false. split; [reflexivity|]. split; [discriminate|].
    intros (j & side & Hj & _). lia.
  - cbn [Polygon_CrossesSegment_loop].
    destruct (Polygon_side_is_Some g i Hle) as (side & Hside & _); [lia|].
    rewrite Hside. cbn.
    destruct (Segment_CrossesSegment side t) eqn:Hcross.
    + exists true. split; [reflexivity|]. split; [|reflexivity].
      intros _. exists i, side. repeat split; try assumption; lia.
    + destruct (IH (S i)) as (b & Hb & Hiff); [lia|].
      exists b. split; [exact Hb|]. rewrite Hiff. split.
      * intros (j & sj & Hj & Hsj & Hcj). exists j, sj. repeat split; try assumption; lia.
      * intros (j & sj & Hj & Hsj & Hcj).
        destruct (Nat.eq_dec j i) as [->|Hne]; [congruence|].
        exists j, sj. repeat split; try assumption; lia.
Qed.

(** X25. For a polygon whose [size_] stays within its vertex vector,
    [CrossesSegment] has a result, and the result is true exactly when one
    of the [size_] edges (vertex [i] to vertex [i + 1], the last one back
    to vertex 0) crosses the segment. *)
Theorem Polygon_CrossesSegment_some_edge (g : Polygon) (segment : Segment) :
  (Polygon_size g <= length (Polygon_points g))%nat ->
  exists b, Polygon_CrossesSegment g segment = Some b /\
    (b = true <->
     exists i side, (i < Polygon_size g)%nat /\ Polygon_side g i = Some side /\
                    Segment_CrossesSegment side segment = true).
Proof.
  intros Hle.
  destruct (Polygon_CrossesSegment_loop_spec g segment Hle (Polygon_size g) 0)
    as (b & Hb & Hiff); [lia|].
  exists b. split; [exact Hb|]. rewrite Hiff.
  split; intros (i & side & Hi & Hrest); exists i, side; (split; [lia | exact Hrest]).
Qed.

Lemma Polygon_CrossesSegment_some_edge_witness :
  let g := Polygon_of_vector [mkPoint 0 0; mkPoint 4 0; mkPoint 4 4; mkPoint 0 4] in
  let segment := mkSegment (mkPoint 2 2) (mkPoint 9 2) in
  (Polygon_size g <= length (Polygon_points g))%nat /\
  exists b, Polygon_CrossesSegment g segment = Some b /\
    (b = true <->
     exists i side, (i < Polygon_size g)%nat /\ Polygon_side g i = Some side /\
                    Segment_CrossesSegment side segment = true).
Proof.
  intros g segment.
  assert (Hle : (Polygon_size g <= length (Polygon_points g))%nat) by (cbn; lia).
  split; [exact Hle | exact (Polygon_CrossesSegment_some_edge g segment Hle)].
Defined.

(** Once an edge of the remaining range holds the query point, the ray
    cast stops with true, whatever it has counted. *)
Lemma Polygon_ContainsPointWithDirection_loop_on_edge g ray :
  (Polygon_size g <= length (Polygon_points g))%nat ->
  forall todo j n i side,
    (j <= i < j + todo)%nat -> (j + todo <= Polygon_size g)%nat ->
    Polygon_side g i = Some side ->
    Segment_ContainsPoint side (Ray_GetBegin ray) = true ->
    Polygon_ContainsPointWithDirection_loop g ray todo j n = Some true.
Proof.
  intros Hle. induction todo as [|todo IH]; intros j n i side Hi Hj Hside Hon; [lia|].
  cbn [Polygon_ContainsPointWithDirection_loop].
  destruct (Polygon_side_is_Some g j Hle) as (sj & Hsj & _); [lia|].
  rewrite Hsj. cbn.
  destruct (Segment_ContainsPoint sj (Ray_GetBegin ray)) eqn:Hcj; [reflexivity|].
  apply (IH (S j) _ i side); try assumption; try lia.
  destruct (Nat.eq_dec i j) as [->|Hne]; [congruence | lia].
Qed.

(** X26. A point lying on an edge of a polygon (with [size_] within the
    vertex vector) is reported inside by the ray cast in every direction,
    hence by [ContainsPoint]. *)
Theorem Polygon_ContainsPoint_on_edge (g : Polygon) (point : Point) (i : nat)
    (side : Segment) :
  (Polygon_size g <= length (Polygon_points g))%nat ->
  (i < Polygon_size g)%nat ->
  Polygon_side g i = Some side ->
  Segment_ContainsPoint side point = true ->
  (forall direction,
     Polygon_ContainsPointWithDirection g point direction = Some true) /\
  Polygon_ContainsPoint g point = Some true.
Proof.
  intros Hle Hi Hside Hon.
  assert (Hdir : forall direction,
            Polygon_ContainsPointWithDirection g point direction = Some true).
  { intros direction. unfold Polygon_ContainsPointWithDirection.
    apply (Polygon_ContainsPointWithDirection_loop_on_edge g _ Hle _ _ _ i side);
      try assumption; lia. }
  split; [exact Hdir|]. unfold Polygon_ContainsPoint. rewrite Hdir. reflexivity.
Qed.

Lemma Polygon_ContainsPoint_on_edge_witness :
  let g := Polygon_of_vector [mkPoint 0 0; mkPoint 4 0; mkPoint 4 4; mkPoint 0 4] in
  let point := mkPoint 4 2 in
  let side := mkSegment (mkPoint 4 0) (mkPoint 4 4) in
  ((Polygon_size g <= length (Polygon_points g))%nat /\ (1 < Polygon_size g)%nat) /\
  Polygon_side g 1 = Some side /\
  Segment_ContainsPoint side point = true /\
  Polygon_ContainsPoint g point = Some true.
Proof.
  intros g point side.
  assert (Hle : (Polygon_size g <= length (Polygon_points g))%nat) by (cbn; lia).
  assert (Hi : (1 < Polygon_size g)%nat) by (cbn; lia).
  assert (Hside : Polygon_side g 1 = Some side) by reflexivity.
  assert (Hon : Segment_ContainsPoint side point = true) by reflexivity.
  split; [exact (conj Hle Hi)|]. split; [exact Hside|]. split; [exact Hon|].
  exact (proj2 (Polygon_ContainsPoint_on_edge g point 1 side Hle Hi Hside Hon)).
Defined.

(** X27. Every one of the first [size_] vertices of such a polygon is
    contained in it. *)
Theorem Polygon_ContainsPoint_vertex (g : Polygon) (i : nat) (p : Point) :
  (Polygon_size g <= length (Polygon_points g))%nat ->
  (i < Polygon_size g)%nat ->
  Polygon_points g !! i = Some p ->
  Polygon_ContainsPoint g p = Some true.
Proof.
  intros Hle Hi Hp.
  destruct (Polygon_side_is_Some g i Hle Hi) as (side & Hside & Hbegin).
  assert (Hon : Segment_ContainsPoint side p = true).
  { rewrite Hp in Hbegin. injection Hbegin as ->. destruct side as [b e].
    apply Segment_ContainsPoint_endpoints. }
  assert (Hdir : Polygon_ContainsPointWithDirection g p (mkVector 1 0) = Some true).
  { unfold Polygon_ContainsPointWithDirection.
    apply (Polygon_ContainsPointWithDirection_loop_on_edge g _ Hle _ _ _ i side);
      try assumption; lia. }
  unfold Polygon_ContainsPoint. rewrite Hdir. reflexivity.
Qed.

Lemma Polygon_ContainsPoint_vertex_witness :
  let g := Polygon_of_vector [mkPoint 0 0; mkPoint 4 0; mkPoint 4 4; mkPoint 0 4] in
  ((Polygon_size g <= length (Polygon_points g))%nat /\ (2 < Polygon_size g)%nat) /\
  Polygon_points g !! 2%nat = Some (mkPoint 4 4) /\
  Polygon_ContainsPoint g (mkPoint 4 4) = Some true.
Proof.
  intros g.
  assert (Hle : (Polygon_size g <= length (Polygon_points g))%nat) by (cbn; lia).
  assert (Hi : (2 < Polygon_size g)%nat) by (cbn; lia).
  assert (Hp : Polygon_points g !! 2%nat = Some (mkPoint 4 4)) by reflexivity.
  split; [exact (conj Hle Hi)|]. split; [exact Hp|].
  exact (Polygon_ContainsPoint_vertex g 2 (mkPoint 4 4) Hle Hi Hp).
Defined.

(** ** Lines through points *)

Lemma Line_of_Points_PutPoint_begin p q :
  Line_PutPointIntoEquation (Line_of_Points p q) p = 0.
Proof.
  unfold Line_PutPointIntoEquation, Line_of_Points; cbn [Line_a Line_b Line_c].
  int_zero.
Qed.

Lemma Line_of_Points_PutPoint_end p q :
  Line_PutPointIntoEquation (Line_of_Points p q) q = 0.
Proof.
  unfold Line_PutPointIntoEquation, Line_of_Points; cbn [Line_a Line_b Line_c].
  int_zero.
Qed.

Lemma Line_ContainsPoint_PutPoint l p :
  Line_ContainsPoint l p = (Line_PutPointIntoEquation l p =? 0).
Proof. reflexivity. Qed.

Lemma Line_CrossesSegment_begin_on l b e :
  Line_PutPointIntoEquation l b = 0 -> Line_CrossesSegment l (mkSegment b e) = true.
Proof.
  intros H. unfold Line_CrossesSegment; cbn [Segment_GetBegin Segment_GetEnd].
  rewrite H. reflexivity.
Qed.

Lemma Line_CrossesSegment_end_on l b e :
  Line_PutPointIntoEquation l e = 0 -> Line_CrossesSegment l (mkSegment b e) = true.
Proof.
  intros H. unfold Line_CrossesSegment, lmul; cbn [Segment_GetBegin Segment_GetEnd].
  rewrite H, Z.mul_0_r. reflexivity.
Qed.

(** X10. The line built from two points contains both of them, for all
    [int] coordinates, and crosses every segment that has one of them as
    an endpoint. *)
Theorem Line_of_Points_through (p q r : Point) :
  Line_ContainsPoint (Line_of_Points p q) p = true /\
  Line_ContainsPoint (Line_of_Points p q) q = true /\
  Line_CrossesSegment (Line_of_Points p q) (mkSegment p r) = true /\
  Line_CrossesSegment (Line_of_Points p q) (mkSegment r p) = true /\
  Line_CrossesSegment (Line_of_Points p q) (mkSegment q r) = true /\
  Line_CrossesSegment (Line_of_Points p q) (mkSegment r q) = true.
Proof.
  rewrite !Line_ContainsPoint_PutPoint.
  rewrite Line_of_Points_PutPoint_begin, Line_of_Points_PutPoint_end.
  repeat split;
    first [ apply Line_CrossesSegment_begin_on; apply Line_of_Points_PutPoint_begin
          | apply Line_CrossesSegment_begin_on; apply Line_of_Points_PutPoint_end
          | apply Line_CrossesSegment_end_on; apply Line_of_Points_PutPoint_begin
          | apply Line_CrossesSegment_end_on; apply Line_of_Points_PutPoint_end ].
Qed.

Lemma Line_of_Points_diag p : Line_of_Points p p = mkLine 0 0 0.
Proof.
  unfold Line_of_Points. rewrite !isub_diag. reflexivity.
Qed.

Lemma Line_IsSame_zero_r line : Line_IsSame line (mkLine 0 0 0) = true.
Proof.
  unfold Line_IsSame, Line_IsParalel; cbn [Line_a Line_b Line_c].
  rewrite !imul_0_r. reflexivity.
Qed.

(** X11. The line built from two equal points has the coefficients
    (0, 0, 0): it contains every point, crosses every segment and is
    [IsSame] with every line, on either side of the test. *)
Theorem Line_of_equal_Points (p point : Point) (segment : Segment) (line : Line) :
  Line_of_Points p p = mkLine 0 0 0 /\
  Line_ContainsPoint (Line_of_Points p p) point = true /\
  Line_CrossesSegment (Line_of_Points p p) segment = true /\
  Line_IsSame (Line_of_Points p p) line = true /\
  Line_IsSame line (Line_of_Points p p) = true.
Proof.
  rewrite Line_of_Points_diag. split; [reflexivity|]. split; [reflexivity|].
  split; [reflexivity|]. split; [apply Line_zero_IsSame | apply Line_IsSame_zero_r].
Qed.

Lemma imul_comm x y : imul x y = imul y x.
Proof. unfold imul. rewrite Z.mul_comm. reflexivity. Qed.

(** X12. [IsParalel] and [IsSame] do not depend on which of the two lines
    is asked, and every line is [IsSame] with itself. *)
Theorem Line_IsSame_symmetric (l1 l2 : Line) :
  Line_IsParalel l1 l2 = Line_IsParalel l2 l1 /\
  Line_IsSame l1 l2 = Line_IsSame l2 l1 /\
  Line_IsSame l1 l1 = true.
Proof.
  assert (Hpar : Line_IsParalel l1 l2 = Line_IsParalel l2 l1).
  { unfold Line_IsParalel.
    rewrite (imul_comm (Line_a l2)), (imul_comm (Line_b l2)). apply Z.eqb_sym. }
  split; [exact Hpar|]. split.
  - unfold Line_IsSame. rewrite Hpar. f_equal.
    rewrite (imul_comm (Line_c l2)), (imul_comm (Line_b l2)). apply Z.eqb_sym.
  - unfold Line_IsSame, Line_IsParalel.
    rewrite (imul_comm (Line_b l1) (Line_a l1)), (imul_comm (Line_b l1) (Line_c l1)).
    rewrite !Z.eqb_refl. reflexivity.
Qed.

(** X13. The line of the ray built from two points is the line built from
    these two points, coefficient by coefficient. *)
Theorem Line_of_Ray_of_Points (p q : Point) :
  Line_of_Ray (Ray_of_Points p q) = Line_of_Points p q.
Proof.
  unfold Line_of_Ray, Ray_of_Points, Line_of_Points, Vector_of_Point, Point_sub;
    cbn [Ray_GetBegin Ray_GetVector Vector_GetX Vector_GetY Point_GetX Point_GetY].
  f_equal; int_ring.
Qed.

Lemma Line_PutPointIntoEquation_medium p q r :
  medium_Point p -> medium_Point q -> medium_Point r ->
  Line_PutPointIntoEquation (Line_of_Points p q) r =
  - exact_cross (exact_Vector_of_Points p q) (exact_Vector_of_Points p r).
Proof.
  destruct p as [px py], q as [qx qy], r as [rx ry].
  medium_intros.
  unfold Line_PutPointIntoEquation, Line_of_Points, exact_cross, exact_Vector_of_Points;
    cbn [Line_a Line_b Line_c Point_GetX Point_GetY Vector_GetX Vector_GetY].
  int_unfold. strip_wraps. ring.
Qed.

(** X14. On coordinates up to 10000, the line through [p] and [q] crosses
    a segment exactly when the two endpoints are not strictly on the same
    side: the exact cross products of [q - p] with the two endpoints taken
    from [p] have a product that is at most 0. *)
Theorem Line_CrossesSegment_medium (p q : Point) (segment : Segment) :
  medium_Point p -> medium_Point q ->
  medium_Point (Segment_GetBegin segment) -> medium_Point (Segment_GetEnd segment) ->
  Line_CrossesSegment (Line_of_Points p q) segment =
  (exact_cross (exact_Vector_of_Points p q)
               (exact_Vector_of_Points p (Segment_GetBegin segment)) *
   exact_cross (exact_Vector_of_Points p q)
               (exact_Vector_of_Points p (Segment_GetEnd segment)) <=? 0).
Proof.
  intros Hp Hq Hb He. unfold Line_CrossesSegment.
  rewrite lmul_is_int by apply Line_PutPointIntoEquation_is_int.
  rewrite !Line_PutPointIntoEquation_medium by assumption.
  rewrite Z.mul_opp_opp. reflexivity.
Qed.

Lemma Line_CrossesSegment_medium_witness :
  let p := mkPoint 0 0 in
  let q := mkPoint 0 5 in
  let segment := mkSegment (mkPoint (-1) 2) (mkPoint 1 2) in
  (medium_Point p /\ medium_Point q /\
   medium_Point (Segment_GetBegin segment) /\ medium_Point (Segment_GetEnd segment)) /\
  Line_CrossesSegment (Line_of_Points p q) segment = true.
Proof.
  intros p q segment.
  assert (Hm : medium_Point p /\ medium_Point q /\
            medium_Point (Segment_GetBegin segment) /\
            medium_Point (Segment_GetEnd segment))
    by (subst p q segment; unfold medium_Point, medium, bounded; cbn; lia).
  split; [exact Hm|]. destruct Hm as (H1 & H2 & H3 & H4).
  rewrite (Line_CrossesSegment_medium p q segment H1 H2 H3 H4). reflexivity.
Defined.

(** ** Segment, line and ray on the same points *)

Lemma Segment_ContainsPoint_Line s point :
  Segment_ContainsPoint s point = true ->
  Line_ContainsPoint (Line_of_Points (Segment_GetBegin s) (Segment_GetEnd s)) point = true.
Proof.
  destruct s as [[bx by_] [ex ey]], point as [px py].
  unfold Segment_ContainsPoint, Line_ContainsPoint, Line_of_Points, Point_sub,
    Vector_of_Point;
    cbn [Segment_GetBegin Segment_GetEnd Point_GetX Point_GetY Vector_GetX Vector_GetY
         Line_a Line_b Line_c].
  intros H. apply andb_true_iff in H as [Hc _]. apply Z.eqb_eq in Hc.
  int_unfold. cbn [Vector_GetX Vector_GetY] in Hc.
  apply wrap32_zero_eqm in Hc. rewrite !wrap32_eqm in Hc.
  apply Z.eqb_eq, wrap32_eqm_0. rewrite !wrap32_eqm.
  match type of Hc with eqm32 ?c 0 => transitivity (- c) end.
  - apply eqm32_of_eq. ring.
  - rewrite Hc. reflexivity.
Qed.

(** X15. A point that a segment contains lies on the line built from the
    segment's endpoints, for all [int] coordinates. *)
Theorem Segment_point_on_Line (s : Segment) (point : Point) :
  Segment_ContainsPoint s point = true ->
  Line_ContainsPoint (Line_of_Points (Segment_GetBegin s) (Segment_GetEnd s)) point = true.
Proof. apply Segment_ContainsPoint_Line. Qed.

Lemma Segment_point_on_Line_witness :
  let s := mkSegment (mkPoint 0 0) (mkPoint 4 2) in
  let point := mkPoint 2 1 in
  Segment_ContainsPoint s point = true /\
  Line_ContainsPoint (Line_of_Points (Segment_GetBegin s) (Segment_GetEnd s)) point = true.
Proof.
  intros s point.
  assert (H : Segment_ContainsPoint s point = true) by reflexivity.
  split; [exact H | exact (Segment_point_on_Line s point H)].
Defined.

(** X16. A segment crosses every segment that begins at one of its two
    endpoints, and so crosses itself. *)
Theorem Segment_CrossesSegment_from_endpoint (p q r : Point) :
  Segment_CrossesSegment (mkSegment p q) (mkSegment p r) = true /\
  Segment_CrossesSegment (mkSegment p q) (mkSegment q r) = true /\
  Segment_CrossesSegment (mkSegment p q) (mkSegment p q) = true.
Proof.
  destruct (Segment_ContainsPoint_endpoints p q) as [Hp Hq].
  assert (Hbegin : forall t, Segment_CrossesSegment (mkSegment p q) (mkSegment p t) = true).
  { intros t. unfold Segment_CrossesSegment; cbn [Segment_GetBegin Segment_GetEnd].
    rewrite Hp.
    rewrite (Line_CrossesSegment_begin_on (Line_of_Points p q) p t)
      by apply Line_of_Points_PutPoint_begin.
    rewrite (Line_CrossesSegment_begin_on (Line_of_Points p t) p q)
      by apply Line_of_Points_PutPoint_begin.
    reflexivity. }
  split; [apply Hbegin|]. split; [|apply Hbegin].
  unfold Segment_CrossesSegment; cbn [Segment_GetBegin Segment_GetEnd].
  rewrite Hq.
  rewrite (Line_CrossesSegment_begin_on (Line_of_Points p q) q r)
    by apply Line_of_Points_PutPoint_end.
  rewrite (Line_CrossesSegment_end_on (Line_of_Points q r) p q)
    by apply Line_of_Points_PutPoint_begin.
  reflexivity.
Qed.

(** X17. On coordinates up to 10000, a segment whose two endpoints are the
    same point contains exactly that point. *)
Theorem Segment_degenerate (p r : Point) :
  medium_Point p -> medium_Point r ->
  Segment_ContainsPoint (mkSegment p p) r = Point_ContainsPoint p r.
Proof.
  intros Hp Hr. rewrite Segment_ContainsPoint_medium by assumption.
  destruct p as [px py], r as [rx ry].
  unfold exact_cross, exact_dot, exact_Vector_of_Points, Point_ContainsPoint;
    cbn [Point_GetX Point_GetY Vector_GetX Vector_GetY].
  apply eq_true_iff_eq. rewrite !andb_true_iff, !Z.eqb_eq, Z.leb_le.
  pose proof (Z.square_nonneg (rx - px)). pose proof (Z.square_nonneg (ry - py)).
  split.
  - intros [_ Hd].
    assert (H1 : (rx - px) * (rx - px) = 0) by lia.
    assert (H2 : (ry - py) * (ry - py) = 0) by lia.
    apply Z.mul_eq_0 in H1, H2. lia.
  - intros [-> ->]. rewrite !Z.sub_diag. lia.
Qed.

Lemma Segment_degenerate_witness :
  let p := mkPoint 3 (-4) in
  let r := mkPoint 3 5 in
  (medium_Point p /\ medium_Point r) /\
  Segment_ContainsPoint (mkSegment p p) r = Point_ContainsPoint p r.
Proof.
  intros p r.
  assert (Hm : medium_Point p /\ medium_Point r)
    by (subst p r; unfold medium_Point, medium, bounded; cbn; lia).
  split; [exact Hm | exact (Segment_degenerate p r (proj1 Hm) (proj2 Hm))].
Defined.

Lemma Vector_cross_swap v w : Vector_cross v w = ineg (Vector_cross w v).
Proof. int_ring. Qed.

(** X19. [Segment::ContainsPoint] gives the same answer when the two
    endpoints of the segment are exchanged, for all [int] coordinates. *)
Theorem Segment_ContainsPoint_swap (p q r : Point) :
  Segment_ContainsPoint (mkSegment p q) r = Segment_ContainsPoint (mkSegment q p) r.
Proof.
  unfold Segment_ContainsPoint; cbn [Segment_GetBegin Segment_GetEnd].
  rewrite (Vector_dot_comm (Vector_of_Point (Point_sub r q))).
  rewrite (Vector_cross_swap (Vector_of_Point (Point_sub r q))).
  rewrite ineg_eq_0 by apply wrap32_is_int. reflexivity.
Qed.

(** The exact reading of [Ray::ContainsPoint], with room for a direction
    that is the difference of two points. *)
Lemma Ray_ContainsPoint_bounded bx by_ dx dy px py :
  bounded 10000 bx -> bounded 10000 by_ -> bounded 20000 dx -> bounded 20000 dy ->
  bounded 10000 px -> bounded 10000 py ->
  Ray_ContainsPoint (mkRay (mkPoint bx by_) (mkVector dx dy)) (mkPoint px py) =
  (dx * (py - by_) - dy * (px - bx) =? 0) && (0 <=? (px - bx) * dx + (py - by_) * dy).
Proof.
  intros.
  unfold Ray_ContainsPoint, Line_ContainsPoint, Line_of_Ray, Point_sub, Vector_of_Point;
    cbn [Ray_GetBegin Ray_GetVector Point_GetX Point_GetY Vector_GetX Vector_GetY
         Line_a Line_b Line_c].
  int_unfold. cbn [Vector_GetX Vector_GetY]. strip_wraps.
  replace (dy * px + - dx * py + (- dy * bx - - dx * by_))
    with (- (dx * (py - by_) - dy * (px - bx))) by ring.
  destruct (Z.eqb_spec (dx * (py - by_) - dy * (px - bx)) 0) as [->|Hne].
  - cbn. destruct (0 <=? _); reflexivity.
  - destruct (Z.eqb_spec (- (dx * (py - by_) - dy * (px - bx))) 0); [lia | reflexivity].
Qed.

Lemma bounded_weaken k k' z : bounded k z -> k <= k' -> bounded k' z.
Proof. unfold bounded. lia. Qed.

(** X21. On coordinates and direction components up to 10000, a ray
    contains a point exactly when the point is on the ray's line (exact
    cross product of the direction with [point - begin] is 0) and in its
    forward half (exact dot product at least 0). *)
Theorem Ray_ContainsPoint_medium (r : Ray) (point : Point) :
  medium_Point (Ray_GetBegin r) -> medium_Vector (Ray_GetVector r) ->
  medium_Point point ->
  Ray_ContainsPoint r point =
  (exact_cross (Ray_GetVector r) (exact_Vector_of_Points (Ray_GetBegin r) point) =? 0) &&
  (0 <=? exact_dot (exact_Vector_of_Points (Ray_GetBegin r) point) (Ray_GetVector r)).
Proof.
  destruct r as [[bx by_] [dx dy]], point as [px py].
  unfold medium_Point, medium_Vector, medium;
    cbn [Ray_GetBegin Ray_GetVector Point_GetX Point_GetY Vector_GetX Vector_GetY].
  intros [Hbx Hby] [Hdx Hdy] [Hpx Hpy].
  rewrite Ray_ContainsPoint_bounded;
    try assumption; try (eapply bounded_weaken; [eassumption | lia]).
  reflexivity.
Qed.

Lemma Ray_ContainsPoint_medium_witness :
  let r := mkRay (mkPoint 1 1) (mkVector 2 1) in
  let point := mkPoint 5 3 in
  (medium_Point (Ray_GetBegin r) /\ medium_Vector (Ray_GetVector r) /\ medium_Point point) /\
  Ray_ContainsPoint r point = true.
Proof.
  intros r point.
  assert (Hm : medium_Point (Ray_GetBegin r) /\ medium_Vector (Ray_GetVector r) /\
               medium_Point point)
    by (subst r point; unfold medium_Point, medium_Vector, medium, bounded; cbn; lia).
  split; [exact Hm|]. destruct Hm as (H1 & H2 & H3).
  rewrite (Ray_ContainsPoint_medium r point H1 H2 H3). reflexivity.
Defined.

(** X18. On coordinates up to 10000, every point of the segment from [p]
    to [q] is a point of the ray built from [p] and [q]. *)
Theorem Segment_in_Ray (p q r : Point) :
  medium_Point p -> medium_Point q -> medium_Point r ->
  Segment_ContainsPoint (mkSegment p q) r = true ->
  Ray_ContainsPoint (Ray_of_Points p q) r = true.
Proof.
  intros Hp Hq Hr Hon.
  rewrite Segment_ContainsPoint_medium in Hon by assumption.
  destruct p as [px py], q as [qx qy], r as [rx ry].
  unfold medium_Point, medium in Hp, Hq, Hr; cbn [Point_GetX Point_GetY] in Hp, Hq, Hr.
  destruct Hp as [Hpx Hpy], Hq as [Hqx Hqy], Hr as [Hrx Hry].
  unfold exact_cross, exact_dot, exact_Vector_of_Points in Hon;
    cbn [Point_GetX Point_GetY Vector_GetX Vector_GetY] in Hon.
  apply andb_true_iff in Hon as [Hc Hd]. apply Z.eqb_eq in Hc. apply Z.leb_le in Hd.
  unfold Ray_of_Points, Point_sub, Vector_of_Point, isub; cbn [Point_GetX Point_GetY].
  assert (Hdx : bounded 20000 (qx - px)) by (unfold bounded in *; lia).
  assert (Hdy : bounded 20000 (qy - py)) by (unfold bounded in *; lia).
  rewrite (wrap32_small (qx - px)), (wrap32_small (qy - py))
    by (unfold bounded, is_int in *; lia).
  rewrite Ray_ContainsPoint_bounded by assumption.
  apply andb_true_iff. rewrite Z.eqb_eq, Z.leb_le. split.
  - rewrite <- Hc. ring.
  - pose proof (Z.square_nonneg (rx - px)). pose proof (Z.square_nonneg (ry - py)).
    replace ((rx - px) * (qx - px) + (ry - py) * (qy - py))
      with ((rx - px) * (rx - px) + (ry - py) * (ry - py)
            - ((rx - px) * (rx - qx) + (ry - py) * (ry - qy))) by ring.
    lia.
Qed.

Lemma Segment_in_Ray_witness :
  let p := mkPoint 0 0 in
  let q := mkPoint 4 2 in
  let r := mkPoint 2 1 in
  (medium_Point p /\ medium_Point q /\ medium_Point r) /\
  Segment_ContainsPoint (mkSegment p q) r = true /\
  Ray_ContainsPoint (Ray_of_Points p q) r = true.
Proof.
  intros p q r.
  assert (Hm : medium_Point p /\ medium_Point q /\ medium_Point r)
    by (subst p q r; unfold medium_Point, medium, bounded; cbn; lia).
  assert (Hon : Segment_ContainsPoint (mkSegment p q) r = true) by reflexivity.
  split; [exact Hm|]. split; [exact Hon|]. destruct Hm as (H1 & H2 & H3).
  exact (Segment_in_Ray p q r H1 H2 H3 Hon).
Defined.

Lemma Ray_ContainsPoint_begin_on (r : Ray) : Ray_ContainsPoint r (Ray_GetBegin r) = true.
Proof.
  destruct r as [[bx by_] [dx dy]].
  unfold Ray_ContainsPoint; cbn [Ray_GetBegin Ray_GetVector].
  assert (Hline : Line_ContainsPoint (Line_of_Ray (mkRay (mkPoint bx by_) (mkVector dx dy)))
                    (mkPoint bx by_) = true).
  { unfold Line_ContainsPoint, Line_of_Ray;
      cbn [Ray_GetBegin Ray_GetVector Point_GetX Point_GetY Vector_GetX Vector_GetY
           Line_a Line_b Line_c].
    apply Z.eqb_eq. int_zero. }
  rewrite Hline. unfold Point_sub; cbn [Point_GetX Point_GetY].
  rewrite !isub_diag. reflexivity.
Qed.

(** X20. A ray contains its own begin point, for all [int] coordinates and
    directions; so does the ray built from two points, whose line also
    passes through the second point. *)
Theorem Ray_ContainsPoint_begin (r : Ray) (p q : Point) :
  Ray_ContainsPoint r (Ray_GetBegin r) = true /\
  Ray_ContainsPoint (Ray_of_Points p q) p = true /\
  Line_ContainsPoint (Line_of_Ray (Ray_of_Points p q)) q = true.
Proof.
  split; [apply Ray_ContainsPoint_begin_on|].
  split; [apply (Ray_ContainsPoint_begin_on (Ray_of_Points p q))|].
  assert (Hline : Line_of_Ray (Ray_of_Points p q) = Line_of_Points p q).
  { unfold Line_of_Ray, Ray_of_Points, Line_of_Points, Vector_of_Point, Point_sub;
      cbn [Ray_GetBegin Ray_GetVector Vector_GetX Vector_GetY Point_GetX Point_GetY].
    f_equal; int_ring. }
  rewrite Hline, Line_ContainsPoint_PutPoint, Line_of_Points_PutPoint_end. reflexivity.
Qed.

(** ** Circle: where the endpoints are *)

(** X22. On coordinates up to 10000 and a radius up to 46340: a segment
    with an endpoint exactly on the circle crosses it; so does a segment
    with one endpoint strictly inside and the other strictly outside; a
    segment with both endpoints strictly inside does not. *)
Theorem Circle_CrossesSegment_endpoints (c : Circle) (segment : Segment) :
  medium_Point (Circle_center c) -> bounded 46340 (Circle_radius c) ->
  medium_Point (Segment_GetBegin segment) -> medium_Point (Segment_GetEnd segment) ->
  let r2 := Circle_radius c * Circle_radius c in
  let db := exact_dist2 c (Segment_GetBegin segment) in
  let de := exact_dist2 c (Segment_GetEnd segment) in
  (db = r2 \/ de = r2 -> Circle_CrossesSegment c segment = true) /\
  ((db < r2 /\ r2 < de) \/ (de < r2 /\ r2 < db) -> Circle_CrossesSegment c segment = true) /\
  (db < r2 -> de < r2 -> Circle_CrossesSegment c segment = false).
Proof.
  intros Hc Hr Hb He r2 db de. unfold Circle_CrossesSegment.
  rewrite !Circle_ContainsPointInPerimetr_medium, !Circle_ContainsPoint_medium by assumption.
  fold r2 db de.
  destruct (Z.eqb_spec db r2), (Z.eqb_spec de r2), (Z.leb_spec db r2), (Z.leb_spec de r2);
    cbn [orb andb negb];
    repeat split; intros; try reflexivity; lia.
Qed.

Lemma Circle_CrossesSegment_endpoints_witness :
  let c := mkCircle (mkPoint 0 0) 5 in
  let segment := mkSegment (mkPoint 1 1) (mkPoint 2 (-3)) in
  (medium_Point (Circle_center c) /\ bounded 46340 (Circle_radius c) /\
   medium_Point (Segment_GetBegin segment) /\ medium_Point (Segment_GetEnd segment)) /\
  (exact_dist2 c (Segment_GetBegin segment) < Circle_radius c * Circle_radius c /\
   exact_dist2 c (Segment_GetEnd segment) < Circle_radius c * Circle_radius c) /\
  Circle_CrossesSegment c segment = false.
Proof.
  intros c segment.
  assert (Hm : medium_Point (Circle_center c) /\ bounded 46340 (Circle_radius c) /\
            medium_Point (Segment_GetBegin segment) /\
            medium_Point (Segment_GetEnd segment))
    by (subst c segment; unfold medium_Point, medium, bounded; cbn; lia).
  assert (Hin : exact_dist2 c (Segment_GetBegin segment)
                  < Circle_radius c * Circle_radius c /\
                exact_dist2 c (Segment_GetEnd segment)
                  < Circle_radius c * Circle_radius c)
    by (subst c segment; unfold exact_dist2; cbn; lia).
  split; [exact Hm|]. split; [exact Hin|].
  destruct Hm as (H1 & H2 & H3 & H4). destruct Hin as (H5 & H6).
  exact (proj2 (proj2 (Circle_CrossesSegment_endpoints c segment H1 H2 H3 H4)) H5 H6).
Defined.

(** X23. On coordinates up to 10000, a circle of radius 0 contains exactly
    its center, and only the center is on its perimeter. *)
Theorem Circle_radius_zero (center point : Point) :
  medium_Point center -> medium_Point point ->
  Circle_ContainsPoint (mkCircle center 0) point = Point_ContainsPoint center point /\
  Circle_ContainsPointInPerimetr (mkCircle center 0) point = Point_ContainsPoint center point.
Proof.
  intros Hc Hp.
  assert (H0 : bounded 46340 0) by (unfold bounded; lia).
  rewrite Circle_ContainsPoint_medium, Circle_ContainsPointInPerimetr_medium
    by assumption.
  destruct center as [cx cy], point as [px py].
  unfold exact_dist2, Point_ContainsPoint;
    cbn [Circle_center Circle_radius Point_GetX Point_GetY].
  pose proof (Z.square_nonneg (px - cx)). pose proof (Z.square_nonneg (py - cy)).
  assert (Hiff : (px - cx) * (px - cx) + (py - cy) * (py - cy) <= 0 <-> cx = px /\ cy = py).
  { split.
    - intros Hd.
      assert (Hsx : (px - cx) * (px - cx) = 0) by lia.
      assert (Hsy : (py - cy) * (py - cy) = 0) by lia.
      apply Z.mul_eq_0 in Hsx, Hsy. lia.
    - intros [-> ->]. rewrite !Z.sub_diag. lia. }
  split; apply eq_true_iff_eq; rewrite andb_true_iff, !Z.eqb_eq, <- Hiff.
  - rewrite Z.leb_le. reflexivity.
  - lia.
Qed.

Lemma Circle_radius_zero_witness :
  let center := mkPoint 3 4 in
  let point := mkPoint 3 5 in
  (medium_Point center /\ medium_Point point) /\
  Circle_ContainsPoint (mkCircle center 0) point = false /\
  Circle_ContainsPoint (mkCircle center 0) center = true.
Proof.
  intros center point.
  assert (Hm : medium_Point center /\ medium_Point point)
    by (subst center point; unfold medium_Point, medium, bounded; cbn; lia).
  split; [exact Hm|]. destruct Hm as [H1 H2].
  rewrite (proj1 (Circle_radius_zero center point H1 H2)).
  rewrite (proj1 (Circle_radius_zero center center H1 H1)).
  split; reflexivity.
Defined.

(** ** Polygon: the parity of the ray cast *)

Lemma Polygon_ContainsPointWithDirection_loop_count g ray :
  (Polygon_size g <= length (Polygon_points g))%nat ->
  (forall i side, (i < Polygon_size g)%nat -> Polygon_side g i = Some side ->
                  Segment_ContainsPoint side (Ray_GetBegin ray) = false) ->
  forall todo i n,
    (i + todo <= Polygon_size g)%nat -> 0 <= n -> n + Z.of_nat todo <= 2147483647 ->
    Polygon_ContainsPointWithDirection_loop g ray todo i n =
    Some (Z.rem (n + Z.of_nat (length (List.filter (Polygon_edge_crossed g ray)
                                                   (seq i todo)))) 2 =? 1).
Proof.
  intros Hle Hoff. induction todo as [|todo IH]; intros i n Hi Hn Hmax.
  - cbn. rewrite Z.add_0_r. reflexivity.
  - cbn [Polygon_ContainsPointWithDirection_loop seq List.filter].
    destruct (Polygon_side_is_Some g i Hle) as (side & Hside & _); [lia|].
    unfold Polygon_edge_crossed at 1. rewrite Hside. cbn [mbind option_bind].
    rewrite (Hoff i side) by (assumption || lia).
    destruct (Ray_CrossesSegment ray side).
    + unfold iadd. rewrite wrap32_small by (unfold is_int; lia).
      rewrite IH by lia. cbn [length]. do 3 f_equal. lia.
    + unfold iadd. rewrite wrap32_small by (unfold is_int; lia).
      rewrite IH by lia. do 3 f_equal. lia.
Qed.

(** X28. For a polygon of at most 2^31 - 1 edges ([size_] within the
    vertex vector) and a point that lies on none of its edges, the ray
    cast in a direction reports inside exactly when the ray crosses an odd
    number of edges. *)
Theorem Polygon_ContainsPointWithDirection_parity (g : Polygon) (point : Point)
    (direction : Vector) :
  (Polygon_size g <= length (Polygon_points g))%nat ->
  Z.of_nat (Polygon_size g) <= 2147483647 ->
  (forall i side, (i < Polygon_size g)%nat -> Polygon_side g i = Some side ->
                  Segment_ContainsPoint side point = false) ->
  Polygon_ContainsPointWithDirection g point direction =
  Some (Z.odd (Z.of_nat (Polygon_edges_crossed g (mkRay point direction)))).
Proof.
  intros Hle Hmax Hoff. unfold Polygon_ContainsPointWithDirection.
  rewrite (Polygon_ContainsPointWithDirection_loop_count g (mkRay point direction) Hle Hoff)
    by lia.
  unfold Polygon_edges_crossed. rewrite Z.add_0_l.
  rewrite Z.rem_mod_nonneg by lia. rewrite <- Zodd_mod. reflexivity.
Qed.

Lemma Polygon_ContainsPointWithDirection_parity_witness :
  let g := Polygon_of_vector [mkPoint 0 0; mkPoint 4 0; mkPoint 4 4; mkPoint 0 4] in
  let point := mkPoint 2 2 in
  let direction := mkVector 1 0 in
  ((Polygon_size g <= length (Polygon_points g))%nat /\
   Z.of_nat (Polygon_size g) <= 2147483647) /\
  Polygon_edges_crossed g (mkRay point direction) = 1%nat /\
  Polygon_ContainsPointWithDirection g point direction = Some true.
Proof.
  intros g point direction.
  assert (Hle : (Polygon_size g <= length (Polygon_points g))%nat) by (cbn; lia).
  assert (Hmax : Z.of_nat (Polygon_size g) <= 2147483647) by (cbn; lia).
  assert (Hoff : forall i side, (i < Polygon_size g)%nat -> Polygon_side g i = Some side ->
                   Segment_ContainsPoint side point = false).
  { intros i side Hi Hside. cbn in Hi.
    destruct i as [|[|[|[|i]]]]; [| | | |lia];
      cbn in Hside; injection Hside as <-; reflexivity. }
  split; [exact (conj Hle Hmax)|]. split; [reflexivity|].
  rewrite (Polygon_ContainsPointWithDirection_parity g point direction Hle Hmax Hoff).
  reflexivity.
Defined.

(** ** Ray: a segment that starts where the ray starts *)

Lemma Line_of_Ray_PutPoint_begin r :
  Line_PutPointIntoEquation (Line_of_Ray r) (Ray_GetBegin r) = 0.
Proof.
  unfold Line_PutPointIntoEquation, Line_of_Ray; cbn [Line_a Line_b Line_c].
  int_zero.
Qed.

(** On coordinates up to 500 the two numerators are the begin point's
    coordinates times the denominator: the two lines meet at the begin
    point. *)
Lemma Ray_numerators_at_begin bx by_ dx dy ex ey :
  bounded 500 bx -> bounded 500 by_ -> bounded 500 dx -> bounded 500 dy ->
  bounded 500 ex -> bounded 500 ey ->
  let line1 := Line_of_Ray (mkRay (mkPoint bx by_) (mkVector dx dy)) in
  let line2 := Line_of_Points (mkPoint bx by_) (mkPoint ex ey) in
  Ray_x_numerator line1 line2 = bx * Ray_denominator line1 line2 /\
  Ray_y_numerator line1 line2 = by_ * Ray_denominator line1 line2.
Proof.
  intros Hbx Hby Hdx Hdy Hex Hey line1 line2.
  unfold Ray_x_numerator, Ray_y_numerator, Ray_denominator, CalculateDeterminant,
    Vector_of_Point; cbn [Point_GetX Point_GetY].
  rewrite lneg_is_int by apply wrap32_is_int.
  subst line1 line2.
  unfold Line_of_Ray, Line_of_Points;
    cbn [Ray_GetBegin Ray_GetVector Point_GetX Point_GetY Vector_GetX Vector_GetY
         Line_a Line_b Line_c].
  int_unfold. cbn [Vector_GetX Vector_GetY]. strip_wraps. split; ring.
Qed.

(** X29. On coordinates and direction components up to 500, a ray crosses
    every segment whose first endpoint is the ray's begin point: either
    the lines are [IsSame] and the begin point is on the ray, or the
    quotients of Cramer's rule are exact and give the begin point back. *)
Theorem Ray_CrossesSegment_from_begin (r : Ray) (e : Point) :
  bounded 500 (Point_GetX (Ray_GetBegin r)) -> bounded 500 (Point_GetY (Ray_GetBegin r)) ->
  bounded 500 (Vector_GetX (Ray_GetVector r)) -> bounded 500 (Vector_GetY (Ray_GetVector r)) ->
  bounded 500 (Point_GetX e) -> bounded 500 (Point_GetY e) ->
  Ray_CrossesSegment r (mkSegment (Ray_GetBegin r) e) = true.
Proof.
  destruct r as [[bx by_] [dx dy]], e as [ex ey];
    cbn [Ray_GetBegin Ray_GetVector Point_GetX Point_GetY Vector_GetX Vector_GetY].
  intros Hbx Hby Hdx Hdy Hex Hey.
  set (r := mkRay (mkPoint bx by_) (mkVector dx dy)).
  pose proof (Line_of_Ray_PutPoint_begin r) as Hzero. cbn [Ray_GetBegin r] in Hzero.
  unfold Ray_CrossesSegment; cbn [Segment_GetBegin Segment_GetEnd].
  rewrite (Line_CrossesSegment_begin_on _ _ _ Hzero).
  destruct (Line_IsSame (Line_of_Ray r) (Line_of_Points (mkPoint bx by_) (mkPoint ex ey)))
    eqn:Hsame.
  - pose proof (Ray_ContainsPoint_begin_on r) as Hb. cbn [Ray_GetBegin r] in Hb.
    rewrite Hb. reflexivity.
  - assert (Hden : Ray_denominator (Line_of_Ray r)
                     (Line_of_Points (mkPoint bx by_) (mkPoint ex ey)) <> 0).
    { intros Hden. apply Ray_denominator_zero_IsParalel in Hden.
      rewrite (parallel_zero_value_same _ _ _ Hden Hzero) in Hsame. discriminate. }
    destruct (Ray_numerators_at_begin bx by_ dx dy ex ey Hbx Hby Hdx Hdy Hex Hey)
      as [Hx Hy].
    fold r in Hx, Hy. rewrite Hx, Hy.
    apply Z.eqb_neq in Hden as Hdenb. rewrite Hdenb. cbn [negb].
    unfold ldiv, to_int. rewrite !Z.quot_mul by exact Hden.
    rewrite (wrap64_small bx), (wrap64_small by_) by (unfold bounded in *; lia).
    rewrite (wrap32_small bx), (wrap32_small by_) by (unfold bounded, is_int in *; lia).
    cbn [Ray_GetBegin Ray_GetVector r Point_GetX Point_GetY].
    rewrite !isub_diag. reflexivity.
Qed.

Lemma Ray_CrossesSegment_from_begin_witness :
  let r := mkRay (mkPoint 1 1) (mkVector 3 (-2)) in
  let e := mkPoint 5 7 in
  (bounded 500 (Point_GetX (Ray_GetBegin r)) /\ bounded 500 (Point_GetY (Ray_GetBegin r)) /\
   bounded 500 (Vector_GetX (Ray_GetVector r)) /\ bounded 500 (Vector_GetY (Ray_GetVector r)) /\
   bounded 500 (Point_GetX e) /\ bounded 500 (Point_GetY e)) /\
  Ray_CrossesSegment r (mkSegment (Ray_GetBegin r) e) = true.
Proof.
  intros r e.
  assert (Hb : bounded 500 (Point_GetX (Ray_GetBegin r)) /\
               bounded 500 (Point_GetY (Ray_GetBegin r)) /\
               bounded 500 (Vector_GetX (Ray_GetVector r)) /\
               bounded 500 (Vector_GetY (Ray_GetVector r)) /\
               bounded 500 (Point_GetX e) /\ bounded 500 (Point_GetY e))
    by (subst r e; unfold bounded; cbn; lia).
  split; [exact Hb|]. destruct Hb as (H1 & H2 & H3 & H4 & H5 & H6).
  exact (Ray_CrossesSegment_from_begin r e H1 H2 H3 H4 H5 H6).
Defined.
